(** * twodirections: the table helpers of [functions.py]

    A shallow embedding of [find_superfans], [cummulative_edits],
    [prepare_biweekly_data], [includes_string] and [count_string], the
    properties of the specification that concern them, and further
    properties read off the code.  [plot_data] and [fit_powerlaw] only
    fit and draw with external libraries and are not modelled.

    Conventions of the model.
    - A timestamp is a [Z]: nanoseconds since the epoch, the value a
      [datetime64[ns]] cell holds.  No cell is null (the specification asks
      for well-formed rows), so [GroupBy.last] picks a whole row.
    - [text_length] and the derived [edit_size] are integers; pandas stores
      the latter as a float64 holding an integral value.
    - [Series.quantile] of the day counts is computed in exact rational
      arithmetic; the threshold of the outlier filter, which is compared
      with arbitrary magnitudes, is computed in float64 as numpy does.
    - Text is a [string] of bytes; case folding and word characters are the
      ASCII ones. *)

From Stdlib Require Import List ZArith QArith Qround Lia Lqa Bool Ascii String.
From Stdlib Require Import Permutation Sorted.
From Stdlib Require Floats Uint63.
Import ListNotations.

Local Open Scope Z_scope.

(** ** Ordered keys

    The columns a table is sorted or grouped by hold integers, strings, or
    tuples of them compared lexicographically. *)

Class Ord (K : Type) : Type := {
  leb : K -> K -> bool;
  leb_total : forall a b, leb a b = true \/ leb b a = true;
  leb_trans : forall a b c, leb a b = true -> leb b c = true -> leb a c = true;
  leb_antisym : forall a b, leb a b = true -> leb b a = true -> a = b
}.

Definition keqb {K} `{Ord K} (a b : K) : bool := leb a b && leb b a.

Lemma leb_refl {K} `{Ord K} (a : K) : leb a a = true.
Proof. destruct (leb_total a a); assumption. Qed.

Lemma keqb_eq {K} `{Ord K} (a b : K) : keqb a b = true <-> a = b.
Proof.
  unfold keqb. rewrite andb_true_iff. split.
  - intros [H1 H2]. now apply leb_antisym.
  - intros ->. split; apply leb_refl.
Qed.

Lemma keqb_refl {K} `{Ord K} (a : K) : keqb a a = true.
Proof. now apply keqb_eq. Qed.

Lemma keqb_neq {K} `{Ord K} (a b : K) : keqb a b = false <-> a <> b.
Proof.
  rewrite <- keqb_eq. destruct (keqb a b); split; congruence.
Qed.

Lemma keqb_sym {K} `{Ord K} (a b : K) : keqb a b = keqb b a.
Proof. unfold keqb. apply andb_comm. Qed.

(** Integers. *)

Lemma Z_leb_total (a b : Z) : (a <=? b) = true \/ (b <=? a) = true.
Proof. rewrite !Z.leb_le. lia. Qed.

Lemma Z_leb_trans (a b c : Z) :
  (a <=? b) = true -> (b <=? c) = true -> (a <=? c) = true.
Proof. rewrite !Z.leb_le. lia. Qed.

Lemma Z_leb_antisym (a b : Z) :
  (a <=? b) = true -> (b <=? a) = true -> a = b.
Proof. rewrite !Z.leb_le. lia. Qed.

#[export] Instance Ord_Z : Ord Z :=
  {| leb := Z.leb;
     leb_total := Z_leb_total;
     leb_trans := Z_leb_trans;
     leb_antisym := Z_leb_antisym |}.

(** Strings, in the order of their character codes. *)

Lemma ascii_compare_lt_trans (a b c : ascii) :
  Ascii.compare a b = Lt -> Ascii.compare b c = Lt -> Ascii.compare a c = Lt.
Proof.
  unfold Ascii.compare. rewrite !N.compare_lt_iff. apply N.lt_trans.
Qed.

Lemma ascii_compare_eq (a b : ascii) : Ascii.compare a b = Eq -> a = b.
Proof. apply Ascii.compare_eq_iff. Qed.

Lemma ascii_compare_refl (a : ascii) : Ascii.compare a a = Eq.
Proof. unfold Ascii.compare. apply N.compare_refl. Qed.

Lemma string_compare_lt_trans (s1 s2 s3 : string) :
  String.compare s1 s2 = Lt -> String.compare s2 s3 = Lt ->
  String.compare s1 s3 = Lt.
Proof.
  revert s2 s3.
  induction s1 as [|a s1 IH]; intros [|b s2] [|c s3]; simpl;
    try discriminate; try reflexivity.
  destruct (Ascii.compare a b) eqn:Hab; try discriminate;
    destruct (Ascii.compare b c) eqn:Hbc; try discriminate; intros H12 H23.
  - apply ascii_compare_eq in Hab, Hbc. subst.
    rewrite ascii_compare_refl. eauto.
  - apply ascii_compare_eq in Hab. subst. now rewrite Hbc.
  - apply ascii_compare_eq in Hbc. subst. now rewrite Hab.
  - now rewrite (ascii_compare_lt_trans _ _ _ Hab Hbc).
Qed.

Lemma string_leb_trans (s1 s2 s3 : string) :
  String.leb s1 s2 = true -> String.leb s2 s3 = true -> String.leb s1 s3 = true.
Proof.
  unfold String.leb.
  destruct (String.compare s1 s2) eqn:H12; try discriminate;
    destruct (String.compare s2 s3) eqn:H23; try discriminate; intros _ _.
  - apply String.compare_eq_iff in H12. rewrite H12. now rewrite H23.
  - apply String.compare_eq_iff in H12. rewrite H12. now rewrite H23.
  - apply String.compare_eq_iff in H23. rewrite <- H23. now rewrite H12.
  - now rewrite (string_compare_lt_trans _ _ _ H12 H23).
Qed.

#[export] Instance Ord_string : Ord string :=
  {| leb := String.leb;
     leb_total := String.leb_total;
     leb_trans := string_leb_trans;
     leb_antisym := String.leb_antisym |}.

(** Tuples, lexicographically. *)

Section Lexicographic.
Context {A B : Type} `{Ord A} `{Ord B}.

Definition lex_leb (p q : A * B) : bool :=
  if keqb (fst p) (fst q) then leb (snd p) (snd q) else leb (fst p) (fst q).

Lemma lex_leb_total p q : lex_leb p q = true \/ lex_leb q p = true.
Proof.
  unfold lex_leb. rewrite (keqb_sym (fst q)).
  destruct (keqb (fst p) (fst q)); apply leb_total.
Qed.

Lemma lex_leb_trans p q r :
  lex_leb p q = true -> lex_leb q r = true -> lex_leb p r = true.
Proof.
  unfold lex_leb.
  destruct (keqb (fst p) (fst q)) eqn:Epq;
    destruct (keqb (fst q) (fst r)) eqn:Eqr;
    destruct (keqb (fst p) (fst r)) eqn:Epr;
    rewrite ?keqb_eq, ?keqb_neq in *; intros H1 H2.
  - eapply leb_trans; eassumption.
  - congruence.
  - congruence.
  - rewrite <- Epq in H2. exact H2.
  - congruence.
  - rewrite Eqr in H1. exact H1.
  - exfalso. apply Epq. rewrite Epr in *. now apply leb_antisym.
  - eapply leb_trans; eassumption.
Qed.

Lemma lex_leb_antisym p q :
  lex_leb p q = true -> lex_leb q p = true -> p = q.
Proof.
  unfold lex_leb. rewrite (keqb_sym (fst q)).
  destruct p as [a b], q as [a' b']; simpl.
  destruct (keqb a a') eqn:E; intros H1 H2.
  - apply keqb_eq in E. subst. f_equal. now apply leb_antisym.
  - apply keqb_neq in E. exfalso. apply E. now apply leb_antisym.
Qed.

#[export] Instance Ord_prod : Ord (A * B) :=
  {| leb := lex_leb;
     leb_total := lex_leb_total;
     leb_trans := lex_leb_trans;
     leb_antisym := lex_leb_antisym |}.
End Lexicographic.

(** ** Sorting and grouping

    [sort_on] is [DataFrame.sort_values]: a stable sort of the rows by a key.
    [groupby] is [DataFrame.groupby] with its default [sort=True]: one group
    per distinct key, the keys ascending, each group holding its rows in the
    order of the frame. *)

Section Tables.
Context {A K : Type} `{Ord K}.
Variable key : A -> K.

Fixpoint insert_on (x : A) (l : list A) : list A :=
  match l with
  | [] => [x]
  | y :: t => if leb (key x) (key y) then x :: l else y :: insert_on x t
  end.

Definition sort_on (l : list A) : list A := fold_right insert_on [] l.

Definition has_key (k : K) (x : A) : bool := keqb (key x) k.

Fixpoint unique (l : list K) : list K :=
  match l with
  | [] => []
  | k :: t => k :: filter (fun k' => negb (keqb k' k)) (unique t)
  end.
End Tables.

Definition groupby {A K} `{Ord K} (key : A -> K) (l : list A)
  : list (K * list A) :=
  map (fun k => (k, filter (has_key key k) l))
      (sort_on (fun k => k) (unique (map key l))).

(** [GroupBy.size] and [GroupBy.last]. *)

Definition size {A K} (g : list (K * list A)) : list (K * Z) :=
  map (fun p => (fst p, Z.of_nat (List.length (snd p)))) g.

Definition last_row {A} (l : list A) : option A :=
  match rev l with
  | [] => None
  | x :: _ => Some x
  end.

Fixpoint last_rows {A K} (g : list (K * list A)) : list A :=
  match g with
  | [] => []
  | (_, rows) :: t =>
      match last_row rows with
      | Some x => x :: last_rows t
      | None => last_rows t
      end
  end.

(** ** [Series.quantile]

    The default, linear interpolation: over the ascending values
    [a_0 .. a_(n-1)] the quantile [q] sits at the position [q * (n - 1)]
    and is interpolated between its two neighbours.  An empty column has no
    quantile (pandas answers NaN, which no comparison satisfies).  This
    exact form serves the day counts, which are compared with it as
    integers; the quantile of the edit sizes is computed in float64
    below. *)

Definition quantile (q : Q) (xs : list Z) : option Q :=
  match xs with
  | [] => None
  | _ :: _ =>
      let a := sort_on (fun x => x) xs in
      let n := Z.of_nat (List.length xs) in
      let pos := (q * inject_Z (n - 1))%Q in
      let lo := Qfloor pos in
      let hi := Z.min (lo + 1) (n - 1) in
      let gamma := (pos - inject_Z lo)%Q in
      let x_lo := nth (Z.to_nat lo) a 0 in
      let x_hi := nth (Z.to_nat hi) a 0 in
      Some (inject_Z x_lo + gamma * inject_Z (x_hi - x_lo))%Q
  end.

(** [column >= threshold], row by row. *)

Definition ge_quantile (x : Z) (t : option Q) : bool :=
  match t with
  | Some v => Qle_bool v (inject_Z x)
  | None => false
  end.

(** ** [Series.quantile] in float64

    The column [edit_size] holds float64 values and its quantile is
    compared with magnitudes of any size, so here the rounding of each
    operation counts.  [Series.quantile(q)] hands the values and [q * 100]
    to [np.percentile], whose linear method (numpy 1.22 and later) is
    followed operation by operation; [float] is IEEE binary64. *)

Module Float64.
Import Floats.PrimFloat Floats.FloatOps Floats.SpecFloat.

(** An integer cell as the float64 pandas stores: the nearest float64,
    for a magnitude below 2^63. *)
Definition of_int (z : Z) : float :=
  match z with
  | Z0 => zero
  | Zpos _ => of_uint63 (Uint63.of_Z z)
  | Zneg p => opp (of_uint63 (Uint63.of_Z (Zpos p)))
  end.

(** [np.floor] of a finite float that is not negative, as an index. *)
Definition floor_index (v : float) : Z :=
  match Prim2SF v with
  | S754_finite false m e => Z.shiftl (Zpos m) e
  | _ => 0
  end.

(** numpy's [_lerp]:
    [a + (b - a) * t], and [b - (b - a) * (1 - t)] where [t >= 0.5]. *)
Definition lerp (a b t : float) : float :=
  let diff_b_a := sub b a in
  if leb 0.5%float t then sub b (mul diff_b_a (sub 1%float t))
  else add a (mul diff_b_a t).

(** [arr[i]]; a negative index counts from the end. *)
Definition take (arr : list float) (i : Z) : float :=
  nth (Z.to_nat (if i <? 0 then Z.of_nat (List.length arr) + i else i))
      arr nan.

(** [np.percentile(values, q, method='linear')] on a column without
    missing values; pandas answers NaN for an empty column. *)
Definition percentile (q : float) (values : list Z) : float :=
  match values with
  | [] => nan
  | _ :: _ =>
      let arr := map of_int (sort_on (fun x => x) values) in
      let values_count := Z.of_nat (List.length values) in
      let quantile := div q 100%float in
      let virtual_index := mul (of_int (values_count - 1)) quantile in
      let above := leb (of_int (values_count - 1)) virtual_index in
      let below := ltb virtual_index 0%float in
      let previous_index :=
        if above then -1
        else if below then 0 else floor_index virtual_index in
      let next_index :=
        if above then -1
        else if below then 0 else floor_index virtual_index + 1 in
      let gamma := sub virtual_index (of_int previous_index) in
      lerp (take arr previous_index) (take arr next_index) gamma
  end.

(** [Series.quantile(q)]. *)
Definition series_quantile (q : float) (values : list Z) : float :=
  percentile (mul q 100%float) values.

(** The literal [0.95]: the float64 nearest to it. *)
Definition q95 : float := 0x1.e666666666666p-1%float.

(** [column.abs() <= threshold], row by row; no comparison with NaN
    holds. *)
Definition abs_le (x : Z) (threshold : float) : bool :=
  leb (abs (of_int x)) threshold.
End Float64.

(** [Series.diff] and [Series.fillna]. *)

Fixpoint diff_from (prev : Z) (xs : list Z) : list (option Z) :=
  match xs with
  | [] => []
  | x :: t => Some (x - prev) :: diff_from x t
  end.

Definition diff (xs : list Z) : list (option Z) :=
  match xs with
  | [] => []
  | x :: t => None :: diff_from x t
  end.

Definition fillna (v : Z) (xs : list (option Z)) : list Z :=
  map (fun o => match o with Some x => x | None => v end) xs.

(** ** The rows of [find_superfans] *)

(** A revision, as the caller's table holds it. *)
Record Revision : Type := mkRevision {
  userid : string;
  timestamp : Z;
  text_length : Z
}.

Definition ns_per_day : Z := 86400 * 1000000000.

(** [Series.dt.date]: the calendar day, counted from the epoch. *)
Definition date_of (t : Z) : Z := t / ns_per_day.

Definition date (r : Revision) : Z := date_of (timestamp r).

(** A row of [compressed_df]. *)
Record CompressedEdit : Type := mkCompressedEdit {
  c_userid : string;
  c_date : Z;
  c_timestamp : Z;
  c_text_length : Z;
  edit_size : Z;
  day : Z;
  superfan : option bool
}.

(** A row of [superfans]. *)
Record Superfan : Type := mkSuperfan {
  s_userid : string;
  num_edits : Z;
  s_superfan : bool
}.

(** [df.sort_values(by=['userid', 'date', 'timestamp'])]. *)
Definition sort_values_userid_date_timestamp (df : list Revision)
  : list Revision :=
  sort_on (fun r => (userid r, (date r, timestamp r))) df.

(** [df.groupby(['userid', 'date'], as_index=False).last()], then
    [sort_values(by='timestamp')]. *)
Definition compress_rows (df : list Revision) : list Revision :=
  sort_on timestamp
    (last_rows (groupby (fun r => (userid r, date r))
                  (sort_values_userid_date_timestamp df))).

(** The first edit is assumed to be 72 characters long. *)
Definition first_edit_size : Z := 72.

(** [compressed_df] before the merge with [superfans]: the columns
    [edit_size] and [day] are added to the chronological rows. *)
Definition with_edit_size (rows : list Revision)
  : list CompressedEdit :=
  map (fun p =>
         let r := fst p in
         mkCompressedEdit (userid r) (date r) (timestamp r) (text_length r)
           (snd p) (date_of (timestamp r)) None)
      (combine rows (fillna first_edit_size (diff (map text_length rows)))).

Definition compress (df : list Revision) : list CompressedEdit :=
  with_edit_size (compress_rows df).

(** [agg]: the number of rows per day and user. *)
Definition agg_num_edits (compressed : list CompressedEdit)
  : list ((Z * string) * Z) :=
  size (groupby (fun c => (day c, c_userid c)) compressed).

(** [Series.map] with a series as the mapping: a lookup by index label. *)
Fixpoint lookup {K V} `{Ord K} (k : K) (m : list (K * V)) : option V :=
  match m with
  | [] => None
  | (k', v) :: t => if keqb k' k then Some v else lookup k t
  end.

(** [superfans]: one row per user, in the order of first appearance in
    [agg], with the number of days the user was active and the flag. *)
Definition classify_superfans (compressed : list CompressedEdit)
  : list Superfan :=
  let agg := agg_num_edits compressed in
  let users := unique (map (fun a => snd (fst a)) agg) in
  let per_user := size (groupby (fun a => snd (fst a)) agg) in
  let counts :=
    map (fun u => (u, match lookup u per_user with
                      | Some n => n
                      | None => 0
                      end)) users in
  let threshold := quantile (95 # 100) (map snd counts) in
  map (fun p => mkSuperfan (fst p) (snd p) (ge_quantile (snd p) threshold))
      counts.

(** [compressed_df.merge(superfans[['userid', 'superfan']], on='userid',
    how='left')]. *)
Definition merge_superfan (compressed : list CompressedEdit)
  (superfans : list Superfan) : list CompressedEdit :=
  map (fun c =>
         mkCompressedEdit (c_userid c) (c_date c) (c_timestamp c)
           (c_text_length c) (edit_size c) (day c)
           (lookup (c_userid c)
              (map (fun s => (s_userid s, s_superfan s)) superfans)))
      compressed.

(** [compressed_df[compressed_df['edit_size'].abs() <= df_95]]. *)
Definition filter_outliers (compressed : list CompressedEdit)
  : list CompressedEdit :=
  let df_95 :=
    Float64.series_quantile Float64.q95 (map edit_size compressed) in
  filter (fun c => Float64.abs_le (edit_size c) df_95) compressed.

Definition find_superfans (df : list Revision)
  : list CompressedEdit * list CompressedEdit * list Superfan :=
  let compressed_df := compress df in
  let superfans := classify_superfans compressed_df in
  let compressed_df := merge_superfan compressed_df superfans in
  let filtered_df := filter_outliers compressed_df in
  (compressed_df, filtered_df, superfans).

(** The scenario of the specification: three revisions by "A" on one day
    and one by "B" on the next. *)

Definition day1 : Z := 19000.

Definition scenario : list Revision :=
  [ mkRevision "A" (day1 * ns_per_day + 1000) 100;
    mkRevision "A" (day1 * ns_per_day + 2000) 150;
    mkRevision "A" (day1 * ns_per_day + 3000) 200;
    mkRevision "B" ((day1 + 1) * ns_per_day + 500) 210 ].

(** ** The rows of [cummulative_edits] *)

Record PeriodicCount : Type := mkPeriodicCount {
  period_start : Z;
  revisions : Z;
  cumulative_revisions : Z
}.

(** [Series.cumsum]. *)
Fixpoint cumsum_from (acc : Z) (xs : list Z) : list Z :=
  match xs with
  | [] => []
  | x :: t => (acc + x) :: cumsum_from (acc + x) t
  end.

Definition cumsum (xs : list Z) : list Z := cumsum_from 0 xs.

(** The table built from the column of period starts: one row per start
    that occurs, sorted, with the running total. *)
Definition period_table (starts : list Z) : list PeriodicCount :=
  let biweekly_data :=
    sort_on fst (size (groupby (fun s => s) starts)) in
  map (fun p => mkPeriodicCount (fst (fst p)) (snd (fst p)) (snd p))
      (combine biweekly_data (cumsum (map snd biweekly_data))).

(** [start_time] is [dt.to_period(period).dt.start_time] for the period
    asked for: it sends a timestamp to the start of its bucket. *)
Definition cummulative_edits (start_time : Z -> Z) (timestamps : list Z)
  : list PeriodicCount :=
  period_table (map start_time timestamps).

(** ** Tables as shared objects

    The functions receive a reference to the caller's [DataFrame] and
    assign columns to it; [sort_values], [groupby] and [merge] build new
    tables and leave their argument alone.  A table is its named columns,
    the heap holds the tables, and a call threads the heap and may raise. *)

Inductive cell : Type :=
| VStr (s : string)
| VInt (z : Z)
| VTime (ns : Z)
| VDate (d : Z).

Definition column : Type := list cell.
Definition DataFrame : Type := list (string * column).

Definition loc : Type := nat.
Definition heap : Type := list DataFrame.

Inductive error : Type :=
| KeyError (name : string)
| ValueError
| TypeError
| BadReference.

Inductive result (A : Type) : Type :=
| Ok (a : A)
| Raise (e : error).
Arguments Ok {A} a.
Arguments Raise {A} e.

Definition M (A : Type) : Type := heap -> result A * heap.

Definition ret {A} (a : A) : M A := fun h => (Ok a, h).

Definition bind {A B} (m : M A) (k : A -> M B) : M B :=
  fun h =>
    match m h with
    | (Ok a, h') => k a h'
    | (Raise e, h') => (Raise e, h')
    end.

Definition raise {A} (e : error) : M A := fun h => (Raise e, h).

Notation "x <- m ;; k" := (bind m (fun x => k))
  (at level 61, m at next level, right associativity).
Notation "m ;;; k" := (bind m (fun _ => k))
  (at level 61, right associativity).

Definition lift {A} (e : error) (o : option A) : M A :=
  match o with
  | Some a => ret a
  | None => raise e
  end.

Fixpoint set_nth {A} (n : nat) (x : A) (l : list A) : list A :=
  match l, n with
  | [], _ => []
  | _ :: t, O => x :: t
  | y :: t, S n' => y :: set_nth n' x t
  end.

(** [df[name]]. *)
Fixpoint get_col (name : string) (df : DataFrame) : option column :=
  match df with
  | [] => None
  | (n, c) :: t => if String.eqb n name then Some c else get_col name t
  end.

(** [df[name] = col] on the table itself: an existing column is replaced
    in its place, a new one is appended. *)
Fixpoint set_col (name : string) (col : column) (df : DataFrame)
  : DataFrame :=
  match df with
  | [] => [(name, col)]
  | (n, c) :: t =>
      if String.eqb n name then (n, col) :: t
      else (n, c) :: set_col name col t
  end.

Definition load (l : loc) : M DataFrame :=
  fun h => lift BadReference (nth_error h l) h.

Definition getitem (l : loc) (name : string) : M column :=
  df <- load l ;; lift (KeyError name) (get_col name df).

Definition setitem (l : loc) (name : string) (col : column) : M unit :=
  df <- load l ;; fun h => (Ok tt, set_nth l (set_col name col df) h).

Fixpoint traverse {A B} (f : A -> option B) (l : list A) : option (list B) :=
  match l with
  | [] => Some []
  | x :: t =>
      match f x, traverse f t with
      | Some y, Some ys => Some (y :: ys)
      | _, _ => None
      end
  end.

Definition as_time (c : cell) : option Z :=
  match c with VTime t => Some t | _ => None end.

Definition as_int (c : cell) : option Z :=
  match c with VInt z => Some z | _ => None end.

Definition as_str (c : cell) : option string :=
  match c with VStr s => Some s | _ => None end.

Fixpoint zip3 (us : list string) (ts ls : list Z) : option (list Revision) :=
  match us, ts, ls with
  | [], [], [] => Some []
  | u :: us', t :: ts', l :: ls' =>
      option_map (cons (mkRevision u t l)) (zip3 us' ts' ls')
  | _, _, _ => None
  end.

Section Calls.
(** What pandas parses out of a timestamp string, and the start of the
    bucket of a timestamp for a period alias ([None]: not an alias). *)
Variable parse_datetime : string -> option Z.
Variable to_period : string -> option (Z -> Z).

(** [pd.to_datetime] on a column: text is parsed, an integer counts
    nanoseconds, a date stands for its midnight. *)
Definition datetime_of (c : cell) : option Z :=
  match c with
  | VStr s => parse_datetime s
  | VInt z => Some z
  | VTime t => Some t
  | VDate d => Some (d * ns_per_day)
  end.

Definition to_datetime (col : column) : M column :=
  lift ValueError (option_map (map VTime) (traverse datetime_of col)).

(** [col.dt.date]. *)
Definition dt_date (col : column) : M column :=
  lift TypeError
    (traverse (fun c => option_map (fun t => VDate (date_of t)) (as_time c))
       col).

(** The three columns [find_superfans] goes on to read, row by row. *)
Definition revisions_of (l : loc) : M (list Revision) :=
  us <- getitem l "userid" ;;
  ts <- getitem l "timestamp" ;;
  ls <- getitem l "text_length" ;;
  us <- lift TypeError (traverse as_str us) ;;
  ts <- lift TypeError (traverse as_time ts) ;;
  ls <- lift TypeError (traverse as_int ls) ;;
  lift ValueError (zip3 us ts ls).

(** [find_superfans(df)], [df] being the caller's table. *)
Definition find_superfans_call (df : loc)
  : M (list CompressedEdit * list CompressedEdit * list Superfan) :=
  ts <- getitem df "timestamp" ;;
  ts <- to_datetime ts ;;
  setitem df "timestamp" ts ;;;
  ts <- getitem df "timestamp" ;;
  ds <- dt_date ts ;;
  setitem df "date" ds ;;;
  rows <- revisions_of df ;;
  ret (find_superfans rows).

(** [cummulative_edits(data, period)], [data] being the caller's table. *)
Definition cummulative_edits_call (data : loc) (period : string)
  : M (list PeriodicCount) :=
  ts <- getitem data "timestamp" ;;
  ts <- to_datetime ts ;;
  setitem data "timestamp" ts ;;;
  ts <- getitem data "timestamp" ;;
  ts <- lift TypeError (traverse as_time ts) ;;
  start_time <- lift ValueError (to_period period) ;;
  setitem data (period ++ "_period") (map (fun t => VTime (start_time t)) ts) ;;;
  ret (cummulative_edits start_time ts).
End Calls.

(** ** Text patterns

    Text is modelled for ASCII: a character is a byte, [re.IGNORECASE]
    folds the letters A-Z and [\w] is a letter, a digit or the underscore.
    On text beyond ASCII [re] folds and classifies Unicode code points, and
    the properties below that speak of every text are stated for ASCII
    text.

    [includes_string] hands [re] the pattern text
    [\[\[.*?\|] ++ string ++ [\]\]]; the target is pasted in as it is, so
    the pattern is read here as [re] reads it: from its characters.  The
    fragment read is literals, [.], escaped punctuation, groups,
    alternation and the repetitions [*], [+], [?] (greedy or lazy). *)

Local Open Scope char_scope.

Definition is_upper (c : ascii) : bool :=
  (nat_of_ascii "A" <=? nat_of_ascii c)%nat
  && (nat_of_ascii c <=? nat_of_ascii "Z")%nat.

Definition is_lower (c : ascii) : bool :=
  (nat_of_ascii "a" <=? nat_of_ascii c)%nat
  && (nat_of_ascii c <=? nat_of_ascii "z")%nat.

Definition is_digit (c : ascii) : bool :=
  (nat_of_ascii "0" <=? nat_of_ascii c)%nat
  && (nat_of_ascii c <=? nat_of_ascii "9")%nat.

Definition is_alnum (c : ascii) : bool :=
  is_upper c || is_lower c || is_digit c.

(** The ASCII characters [\w] stands for. *)
Definition is_word (c : ascii) : bool := is_alnum c || Ascii.eqb c "_".

Definition lower (c : ascii) : ascii :=
  if is_upper c then ascii_of_nat (nat_of_ascii c + 32) else c.

Definition newline : ascii := "010".

(** [re.IGNORECASE] on ASCII characters: two characters match when they
    agree up to case. *)
Definition same_char (c d : ascii) : bool := Ascii.eqb (lower c) (lower d).

Inductive regex : Type :=
| Void
| Eps
| Lit (c : ascii)
| Dot
| Cat (r s : regex)
| Alt (r s : regex)
| Star (r : regex).

Definition Plus (r : regex) : regex := Cat r (Star r).
Definition Opt (r : regex) : regex := Alt r Eps.

(** The language of a pattern compiled with [re.IGNORECASE]; [.] stands
    for any character but the newline. *)
Inductive matches : regex -> list ascii -> Prop :=
| MEps : matches Eps []
| MLit c d : same_char c d = true -> matches (Lit c) [d]
| MDot d : d <> newline -> matches Dot [d]
| MCat r s u v : matches r u -> matches s v -> matches (Cat r s) (u ++ v)
| MAltL r s u : matches r u -> matches (Alt r s) u
| MAltR r s u : matches s u -> matches (Alt r s) u
| MStarNil r : matches (Star r) []
| MStarApp r u v :
    matches r u -> matches (Star r) v -> matches (Star r) (u ++ v).

Fixpoint nullable (r : regex) : bool :=
  match r with
  | Void | Lit _ | Dot => false
  | Eps | Star _ => true
  | Cat r s => nullable r && nullable s
  | Alt r s => nullable r || nullable s
  end.

Fixpoint deriv (d : ascii) (r : regex) : regex :=
  match r with
  | Void | Eps => Void
  | Lit c => if same_char c d then Eps else Void
  | Dot => if Ascii.eqb d newline then Void else Eps
  | Cat r s =>
      if nullable r then Alt (Cat (deriv d r) s) (deriv d s)
      else Cat (deriv d r) s
  | Alt r s => Alt (deriv d r) (deriv d s)
  | Star r => Cat (deriv d r) (Star r)
  end.

(** Does the pattern match at the start of the text? *)
Fixpoint match_here (r : regex) (text : list ascii) : bool :=
  nullable r
  || match text with
     | [] => false
     | d :: t => match_here (deriv d r) t
     end.

(** [re.search]: a match starting at some position of the text. *)
Fixpoint search (r : regex) (text : list ascii) : bool :=
  match_here r text
  || match text with
     | [] => false
     | _ :: t => search r t
     end.

(** *** Reading a pattern *)

Inductive parsed (A : Type) : Type :=
| Pattern (a : A)
| ReError
| Unsupported.
Arguments Pattern {A} a.
Arguments ReError {A}.
Arguments Unsupported {A}.

(** A group being read: the alternatives completed so far and the items
    of the current one, latest first. *)
Record frame : Type := mkFrame {
  alts : list (list regex);
  items : list regex
}.

Inductive last_item : Type :=
| NoItem
| Opened
| Item
| Repeated
| LazyRepeat.

Record pstate : Type := mkPState {
  cur : frame;
  stack : list frame;
  escaped : bool;
  prev : last_item
}.

Fixpoint cat_list (rs : list regex) : regex :=
  match rs with
  | [] => Eps
  | r :: t => Cat r (cat_list t)
  end.

Fixpoint alt_list (rs : list regex) : regex :=
  match rs with
  | [] => Void
  | r :: t => Alt r (alt_list t)
  end.

Definition frame_regex (f : frame) : regex :=
  alt_list (map (fun s => cat_list (rev s)) (rev (items f :: alts f))).

Definition push_item (r : regex) (st : pstate) : parsed pstate :=
  Pattern (mkPState (mkFrame (alts (cur st)) (r :: items (cur st)))
             (stack st) false Item).

Definition repeat_item (f : regex -> regex) (st : pstate) : parsed pstate :=
  match prev st, items (cur st) with
  | Item, r :: t =>
      Pattern (mkPState (mkFrame (alts (cur st)) (f r :: t))
                 (stack st) false Repeated)
  | _, _ => ReError
  end.

(** One character of the pattern.  After a backslash a punctuation
    character stands for itself.  [prev] tells what a repetition would
    apply to: nothing at the start of an alternative ([NoItem]) or of a
    group ([Opened]), the item just read ([Item]); after a repetition
    ([Repeated]) a [?] makes it lazy ([LazyRepeat]) and no second
    repetition may follow. *)
Definition step (st : pstate) (c : ascii) : parsed pstate :=
  if escaped st then
    if is_alnum c then Unsupported else push_item (Lit c) st
  else
    match c with
    | "\" => Pattern (mkPState (cur st) (stack st) true (prev st))
    | "(" => Pattern (mkPState (mkFrame [] []) (cur st :: stack st)
                        false Opened)
    | ")" =>
        match stack st with
        | [] => ReError
        | f :: fs =>
            Pattern (mkPState
                       (mkFrame (alts f) (frame_regex (cur st) :: items f))
                       fs false Item)
        end
    | "|" => Pattern (mkPState
                        (mkFrame (items (cur st) :: alts (cur st)) [])
                        (stack st) false NoItem)
    | "*" => repeat_item Star st
    | "+" =>
        match prev st with
        | Repeated => Unsupported
        | _ => repeat_item Plus st
        end
    | "?" =>
        match prev st with
        | Repeated =>
            Pattern (mkPState (cur st) (stack st) false LazyRepeat)
        | Opened => Unsupported
        | _ => repeat_item Opt st
        end
    | "." => push_item Dot st
    | "^" | "$" | "[" | "{" => Unsupported
    | _ => push_item (Lit c) st
    end.

Fixpoint steps (st : pstate) (pattern : list ascii) : parsed pstate :=
  match pattern with
  | [] => Pattern st
  | c :: t =>
      match step st c with
      | Pattern st' => steps st' t
      | ReError => ReError
      | Unsupported => Unsupported
      end
  end.

Definition initial : pstate := mkPState (mkFrame [] []) [] false NoItem.

(** [re.compile]. *)
Definition compile (pattern : string) : parsed regex :=
  match steps initial (list_ascii_of_string pattern) with
  | Pattern st =>
      if escaped st then ReError
      else match stack st with
           | [] => Pattern (frame_regex (cur st))
           | _ :: _ => ReError
           end
  | ReError => ReError
  | Unsupported => Unsupported
  end.

Local Open Scope string_scope.

(** *** [includes_string] *)

Definition includes_pattern (target : string) : string :=
  "\[\[.*?\|" ++ target ++ "\]\]".

(** [Series.str.contains(pattern, case=False, na=False).astype(int)] on
    one cell; a missing text is [None]. *)
Definition contains (r : regex) (text : option string) : Z :=
  match text with
  | Some s => if search r (list_ascii_of_string s) then 1 else 0
  | None => 0
  end.

Definition includes_string (target : string) (col : list (option string))
  : parsed (list Z) :=
  match compile (includes_pattern target) with
  | Pattern r => Pattern (map (contains r) col)
  | ReError => ReError
  | Unsupported => Unsupported
  end.

(** *** [count_string]

    The pattern is [\b] ++ [re.escape(string)] ++ [\b]: the target, taken
    literally, between two word boundaries.  [Series.str.count] counts the
    matches [re.findall] finds: from left to right, without overlap. *)

Definition is_word_at (c : option ascii) : bool :=
  match c with
  | Some a => is_word a
  | None => false
  end.

(** [\b] between the character before the position and the text after. *)
Definition word_boundary (before : option ascii) (after : list ascii)
  : bool :=
  xorb (is_word_at before) (is_word_at (hd_error after)).

(** The literal at the start of the text, then [\b]: [before] is the
    character in front of what is left to match. *)
Fixpoint literal_then_boundary (lit : list ascii) (before : option ascii)
  (text : list ascii) : bool :=
  match lit with
  | [] => word_boundary before text
  | c :: lit' =>
      match text with
      | [] => false
      | d :: text' =>
          same_char c d && literal_then_boundary lit' (Some d) text'
      end
  end.

Definition match_word_here (lit : list ascii) (before : option ascii)
  (text : list ascii) : bool :=
  word_boundary before text && literal_then_boundary lit before text.

(** The scan: [skip] characters still belong to the match just counted. *)
Fixpoint count_matches (lit : list ascii) (before : option ascii)
  (skip : nat) (text : list ascii) : Z :=
  match skip with
  | S skip' =>
      match text with
      | [] => 0
      | d :: t => count_matches lit (Some d) skip' t
      end
  | O =>
      let found := match_word_here lit before text in
      (if found then 1 else 0)
      + match text with
        | [] => 0
        | d :: t =>
            count_matches lit (Some d)
              (if found then Nat.pred (List.length lit) else O) t
        end
  end.

(** [Series.str.count(pattern, flags=re.IGNORECASE)] on one cell. *)
Definition count_cell (target : string) (text : option string) : option Z :=
  option_map
    (fun s => count_matches (list_ascii_of_string target) None O
                (list_ascii_of_string s))
    text.


(** * Properties *)

Local Open Scope list_scope.
Local Open Scope Z_scope.

(** ** Sorting *)

Section SortFacts.
Context {A K : Type} `{Ord K}.
Variable key : A -> K.

Definition key_le (x y : A) : Prop := leb (key x) (key y) = true.

Lemma insert_on_perm (x : A) (l : list A) :
  Permutation (insert_on key x l) (x :: l).
Proof.
  induction l as [|y t IH]; simpl.
  - reflexivity.
  - destruct (leb (key x) (key y)).
    + reflexivity.
    + rewrite IH. apply perm_swap.
Qed.

Lemma sort_on_perm (l : list A) : Permutation (sort_on key l) l.
Proof.
  induction l as [|x t IH]; simpl.
  - reflexivity.
  - rewrite insert_on_perm. now constructor.
Qed.

Lemma sort_on_In (l : list A) (x : A) : In x (sort_on key l) <-> In x l.
Proof.
  split; apply Permutation_in;
    [apply sort_on_perm | symmetry; apply sort_on_perm].
Qed.

Lemma sort_on_length (l : list A) :
  List.length (sort_on key l) = List.length l.
Proof. apply Permutation_length, sort_on_perm. Qed.

Lemma sort_on_nil (l : list A) : sort_on key l = [] -> l = [].
Proof.
  intros E. apply length_zero_iff_nil.
  rewrite <- sort_on_length, E. reflexivity.
Qed.

Lemma insert_on_sorted (x : A) (l : list A) :
  StronglySorted key_le l -> StronglySorted key_le (insert_on key x l).
Proof.
  induction 1 as [|y t Hs IH Hy]; simpl.
  - repeat constructor.
  - destruct (leb (key x) (key y)) eqn:E.
    + constructor.
      * now constructor.
      * constructor; [exact E|].
        eapply Forall_impl; [|exact Hy].
        intros z Hz. unfold key_le in *. eapply leb_trans; eassumption.
    + constructor; [exact IH|].
      assert (Hyx : key_le y x).
      { unfold key_le. destruct (leb_total (key x) (key y)); congruence. }
      eapply Permutation_Forall.
      * symmetry. apply insert_on_perm.
      * now constructor.
Qed.

Lemma sort_on_sorted (l : list A) : StronglySorted key_le (sort_on key l).
Proof.
  induction l as [|x t IH]; simpl.
  - constructor.
  - now apply insert_on_sorted.
Qed.

Lemma StronglySorted_filter (R : A -> A -> Prop) (f : A -> bool)
  (l : list A) :
  StronglySorted R l -> StronglySorted R (filter f l).
Proof.
  induction 1 as [|x t Hs IH Hx]; simpl.
  - constructor.
  - destruct (f x); [|exact IH].
    constructor; [exact IH|].
    rewrite Forall_forall in *. intros y Hy.
    apply filter_In in Hy. now apply Hx.
Qed.

Lemma StronglySorted_last (R : A -> A -> Prop) (l : list A) (x : A) :
  StronglySorted R (l ++ [x]) -> Forall (fun y => R y x) l.
Proof.
  induction l as [|y t IH]; simpl; intros Hs.
  - constructor.
  - apply StronglySorted_inv in Hs. destruct Hs as [Hs Hy].
    constructor.
    + rewrite Forall_forall in Hy. apply Hy, in_or_app. right. now left.
    + now apply IH.
Qed.
End SortFacts.

Lemma StronglySorted_map_inv {X Y} (R : Y -> Y -> Prop) (f : X -> Y)
  (l : list X) :
  StronglySorted R (map f l) -> StronglySorted (fun a b => R (f a) (f b)) l.
Proof.
  induction l as [|x t IH]; simpl; intros Hs; [constructor|].
  apply StronglySorted_inv in Hs. destruct Hs as [Hs Hx].
  constructor; [now apply IH|].
  rewrite Forall_map in Hx. exact Hx.
Qed.

Lemma last_row_app {A} (l : list A) (x : A) : last_row (l ++ [x]) = Some x.
Proof. unfold last_row. rewrite rev_app_distr. reflexivity. Qed.

Lemma last_row_inv {A} (l : list A) (x : A) :
  last_row l = Some x -> exists pre, l = pre ++ [x].
Proof.
  unfold last_row. intros E.
  destruct (rev l) as [|y t] eqn:Er; [discriminate|].
  injection E as ->. exists (rev t).
  rewrite <- (rev_involutive l), Er. reflexivity.
Qed.

Lemma last_row_In {A} (l : list A) (x : A) : last_row l = Some x -> In x l.
Proof.
  intros E. apply last_row_inv in E. destruct E as [pre ->].
  apply in_or_app. right. now left.
Qed.

Lemma last_row_some {A} (l : list A) :
  l <> [] -> exists x, last_row l = Some x.
Proof.
  intros Hl. destruct (exists_last Hl) as (pre & x & ->).
  exists x. apply last_row_app.
Qed.

(** ** Grouping *)

Section GroupFacts.
Context {A K : Type} `{Ord K}.
Variable key : A -> K.

Lemma unique_In (l : list K) (k : K) : In k (unique l) <-> In k l.
Proof.
  induction l as [|a t IH]; simpl; [tauto|].
  rewrite filter_In, IH, negb_true_iff, keqb_neq.
  split.
  - tauto.
  - intros [->|Hk]; [now left|].
    destruct (keqb k a) eqn:E.
    + apply keqb_eq in E. now left.
    + apply keqb_neq in E. right. split; [assumption|]. congruence.
Qed.

Lemma unique_NoDup (l : list K) : NoDup (unique l).
Proof.
  induction l as [|a t IH]; simpl; constructor.
  - rewrite filter_In, negb_true_iff, keqb_neq. tauto.
  - now apply NoDup_filter.
Qed.

(** The keys of the groups: the distinct keys of the rows, ascending. *)
Definition group_keys (l : list A) : list K :=
  sort_on (fun k => k) (unique (map key l)).

Lemma group_keys_In (l : list A) (k : K) :
  In k (group_keys l) <-> exists x, In x l /\ key x = k.
Proof.
  unfold group_keys. rewrite sort_on_In, unique_In, in_map_iff.
  split; intros (x & H1 & H2); exists x; tauto.
Qed.

Lemma group_keys_NoDup (l : list A) : NoDup (group_keys l).
Proof.
  unfold group_keys. eapply Permutation_NoDup.
  - symmetry. apply sort_on_perm.
  - apply unique_NoDup.
Qed.

Lemma group_keys_sorted (l : list A) :
  StronglySorted (fun a b => leb a b = true) (group_keys l).
Proof. apply (sort_on_sorted (fun k : K => k)). Qed.

Lemma groupby_keys (l : list A) : map fst (groupby key l) = group_keys l.
Proof.
  unfold groupby. rewrite map_map. simpl. apply map_id.
Qed.

Lemma groupby_In (l : list A) (k : K) (g : list A) :
  In (k, g) (groupby key l) <->
  In k (group_keys l) /\ g = filter (has_key key k) l.
Proof.
  unfold groupby. fold (group_keys l). rewrite in_map_iff. split.
  - intros (k' & E & Hk). injection E as -> ->. tauto.
  - intros [Hk ->]. now exists k.
Qed.

Lemma has_key_iff (k : K) (x : A) : has_key key k x = true <-> key x = k.
Proof. unfold has_key. apply keqb_eq. Qed.

Lemma group_nonempty (l : list A) (k : K) :
  In k (group_keys l) -> filter (has_key key k) l <> [].
Proof.
  intros Hk E. apply group_keys_In in Hk. destruct Hk as (x & Hx & Ek).
  assert (Hin : In x (filter (has_key key k) l)).
  { apply filter_In. split; [assumption|]. now apply has_key_iff. }
  rewrite E in Hin. exact Hin.
Qed.

(** [last] keeps, for each key in turn, the last row that has it. *)
Lemma last_rows_groupby (l : list A) :
  Forall2 (fun k x => last_row (filter (has_key key k) l) = Some x)
    (group_keys l) (last_rows (groupby key l)).
Proof.
  unfold groupby. fold (group_keys l).
  assert (Hne : forall k, In k (group_keys l) ->
                          filter (has_key key k) l <> [])
    by apply group_nonempty.
  induction (group_keys l) as [|k ks IH]; simpl.
  - constructor.
  - destruct (last_row_some (filter (has_key key k) l)) as [x Ex].
    { apply Hne. now left. }
    rewrite Ex. constructor; [exact Ex|].
    apply IH. intros k' Hk'. apply Hne. now right.
Qed.

Lemma last_rows_keys (l : list A) :
  map key (last_rows (groupby key l)) = group_keys l.
Proof.
  pose proof (last_rows_groupby l) as HF.
  induction HF as [|k x ks xs Hkx _ IH]; simpl.
  - reflexivity.
  - f_equal; [|exact IH].
    apply last_row_In, filter_In in Hkx. now apply has_key_iff.
Qed.

Lemma last_rows_In (l : list A) (x : A) :
  In x (last_rows (groupby key l)) ->
  last_row (filter (has_key key (key x)) l) = Some x.
Proof.
  pose proof (last_rows_groupby l) as HF.
  induction HF as [|k y ks xs Hky _ IH]; simpl.
  - contradiction.
  - intros [->|Hx]; [|now apply IH].
    pose proof Hky as Hin.
    apply last_row_In, filter_In in Hin. destruct Hin as [_ Hk].
    apply has_key_iff in Hk. rewrite Hk. exact Hky.
Qed.

Lemma size_keys {V} (g : list (K * list V)) : map fst (size g) = map fst g.
Proof. unfold size. rewrite map_map. reflexivity. Qed.

Lemma lookup_In {V} (m : list (K * V)) (k : K) (v : V) :
  lookup k m = Some v -> In (k, v) m.
Proof.
  induction m as [|[k' v'] t IH]; simpl; [discriminate|].
  destruct (keqb k' k) eqn:E.
  - apply keqb_eq in E. intros [= ->]. left. congruence.
  - intros Hl. right. now apply IH.
Qed.

Lemma lookup_NoDup {V} (m : list (K * V)) (k : K) (v : V) :
  NoDup (map fst m) -> In (k, v) m -> lookup k m = Some v.
Proof.
  induction m as [|[k' v'] t IH]; simpl; [contradiction|].
  intros Hnd [E|Hin].
  - injection E as -> ->. now rewrite keqb_refl.
  - inversion Hnd as [|? ? Hk' Hnd']; subst.
    destruct (keqb k' k) eqn:E.
    + apply keqb_eq in E. subst. exfalso. apply Hk'.
      apply in_map_iff. now exists (k, v).
    + now apply IH.
Qed.
End GroupFacts.

(** ** [find_superfans]: the compressed table *)

Lemma lex_leb_same {A B} `{Ord A} `{Ord B} (a : A) (b b' : B) :
  leb (a, b) (a, b') = leb b b'.
Proof. simpl. unfold lex_leb. simpl. now rewrite keqb_refl. Qed.

(** The revision a compressed row was made from. *)
Definition revision_of (c : CompressedEdit) : Revision :=
  mkRevision (c_userid c) (c_timestamp c) (c_text_length c).

Definition user_day (r : Revision) : string * Z := (userid r, date r).

Lemma compress_rows_In (df : list Revision) (r : Revision) :
  In r (compress_rows df) ->
  In r df /\
  forall r', In r' df -> userid r' = userid r -> date r' = date r ->
             timestamp r' <= timestamp r.
Proof.
  unfold compress_rows. rewrite sort_on_In. intros Hr.
  apply (last_rows_In user_day) in Hr.
  set (sorted := sort_values_userid_date_timestamp df) in *.
  pose proof Hr as Hin. apply last_row_In, filter_In in Hin.
  destruct Hin as [Hin _].
  split.
  { unfold sorted, sort_values_userid_date_timestamp in Hin.
    now apply sort_on_In in Hin. }
  intros r' Hr' Hu Hd.
  apply last_row_inv in Hr. destruct Hr as [pre Epre].
  assert (Hs : StronglySorted
                 (key_le (fun r => (userid r, (date r, timestamp r))))
                 (pre ++ [r])).
  { rewrite <- Epre. apply StronglySorted_filter.
    apply (sort_on_sorted (fun r => (userid r, (date r, timestamp r)))). }
  apply StronglySorted_last in Hs. rewrite Forall_forall in Hs.
  assert (Hin' : In r' (pre ++ [r])).
  { rewrite <- Epre. apply filter_In. split.
    - unfold sorted, sort_values_userid_date_timestamp.
      now apply sort_on_In.
    - apply has_key_iff. unfold user_day. congruence. }
  apply in_app_or in Hin'. destruct Hin' as [Hp|[->|[]]]; [|lia].
  specialize (Hs r' Hp). unfold key_le in Hs.
  rewrite Hu, Hd, !lex_leb_same in Hs.
  simpl in Hs. now apply Z.leb_le.
Qed.

Lemma compress_rows_keys (df : list Revision) :
  Permutation (map user_day (compress_rows df))
    (group_keys user_day (sort_values_userid_date_timestamp df)).
Proof.
  unfold compress_rows.
  rewrite (Permutation_map user_day (sort_on_perm timestamp _)).
  now rewrite (last_rows_keys user_day).
Qed.

Lemma compress_rows_NoDup (df : list Revision) :
  NoDup (map user_day (compress_rows df)).
Proof.
  eapply Permutation_NoDup.
  - symmetry. apply compress_rows_keys.
  - apply group_keys_NoDup.
Qed.

Lemma compress_rows_covers (df : list Revision) (r : Revision) :
  In r df ->
  exists r', In r' (compress_rows df) /\ user_day r' = user_day r.
Proof.
  intros Hr.
  assert (Hk : In (user_day r) (map user_day (compress_rows df))).
  { eapply Permutation_in; [symmetry; apply compress_rows_keys|].
    apply group_keys_In. exists r. split; [|reflexivity].
    unfold sort_values_userid_date_timestamp. now apply sort_on_In. }
  apply in_map_iff in Hk. destruct Hk as (r' & E & Hr').
  now exists r'.
Qed.

Lemma compress_rows_sorted (df : list Revision) :
  StronglySorted (fun a b => timestamp a <= timestamp b) (compress_rows df).
Proof.
  unfold compress_rows.
  eapply StronglySorted_ind with
    (P := StronglySorted (fun a b => timestamp a <= timestamp b));
    [constructor| |apply (sort_on_sorted timestamp)].
  intros a l _ IH Ha. constructor; [exact IH|].
  eapply Forall_impl; [|exact Ha].
  intros b Hb. unfold key_le in Hb. simpl in Hb. now apply Z.leb_le.
Qed.

Lemma compress_rows_nonempty (df : list Revision) :
  df <> [] -> compress_rows df <> [].
Proof.
  intros Hdf E. destruct df as [|r t]; [congruence|].
  destruct (compress_rows_covers (r :: t) r) as (r' & Hr' & _).
  { now left. }
  rewrite E in Hr'. exact Hr'.
Qed.

(** The rows after the first, given the length before them. *)
Definition edits_from (p : Z) (rows : list Revision) : list CompressedEdit :=
  map (fun q =>
         let r := fst q in
         mkCompressedEdit (userid r) (date r) (timestamp r) (text_length r)
           (snd q) (date_of (timestamp r)) None)
      (combine rows
         (fillna first_edit_size (diff_from p (map text_length rows)))).

Lemma with_edit_size_cons (r : Revision) (rows : list Revision) :
  with_edit_size (r :: rows) =
  mkCompressedEdit (userid r) (date r) (timestamp r) (text_length r)
    first_edit_size (date_of (timestamp r)) None
  :: edits_from (text_length r) rows.
Proof. reflexivity. Qed.

Lemma edits_from_cons (p : Z) (r : Revision) (rows : list Revision) :
  edits_from p (r :: rows) =
  mkCompressedEdit (userid r) (date r) (timestamp r) (text_length r)
    (text_length r - p) (date_of (timestamp r)) None
  :: edits_from (text_length r) rows.
Proof. reflexivity. Qed.

Lemma edits_from_revisions (p : Z) (rows : list Revision) :
  map revision_of (edits_from p rows) = rows.
Proof.
  revert p. induction rows as [|[u t l] rows IH]; intros p.
  - reflexivity.
  - rewrite edits_from_cons. simpl. now rewrite IH.
Qed.

Lemma with_edit_size_revisions (rows : list Revision) :
  map revision_of (with_edit_size rows) = rows.
Proof.
  destruct rows as [|[u t l] rows]; [reflexivity|].
  rewrite with_edit_size_cons. simpl. now rewrite edits_from_revisions.
Qed.

Lemma edits_from_days (p : Z) (rows : list Revision) :
  Forall (fun c => c_date c = date_of (c_timestamp c) /\ day c = c_date c)
    (edits_from p rows).
Proof.
  revert p. induction rows as [|r rows IH]; intros p.
  - constructor.
  - rewrite edits_from_cons. constructor; [now split|apply IH].
Qed.

Lemma with_edit_size_days (rows : list Revision) :
  Forall (fun c => c_date c = date_of (c_timestamp c) /\ day c = c_date c)
    (with_edit_size rows).
Proof.
  destruct rows as [|r rows]; [constructor|].
  rewrite with_edit_size_cons. constructor; [now split|].
  apply edits_from_days.
Qed.

Lemma edits_from_adjacent (p : Z) (rows : list Revision) :
  (forall b, nth_error (edits_from p rows) 0 = Some b ->
             edit_size b = c_text_length b - p) /\
  (forall i a b,
      nth_error (edits_from p rows) i = Some a ->
      nth_error (edits_from p rows) (S i) = Some b ->
      edit_size b = c_text_length b - c_text_length a).
Proof.
  revert p. induction rows as [|r rows IH]; intros p.
  - split; intros; discriminate.
  - rewrite edits_from_cons.
    destruct (IH (text_length r)) as [IH0 IHS]. split.
    + simpl. intros b [= <-]. reflexivity.
    + intros [|i] a b; simpl.
      * intros [= <-] Hb. simpl. now apply IH0.
      * apply IHS.
Qed.

(** The merge adds the flag and changes nothing else. *)
Definition same_but_flag (c c' : CompressedEdit) : Prop :=
  revision_of c' = revision_of c /\ c_date c' = c_date c /\
  edit_size c' = edit_size c /\ day c' = day c.

Lemma merge_superfan_same (compressed : list CompressedEdit)
  (fans : list Superfan) :
  Forall2 same_but_flag compressed (merge_superfan compressed fans).
Proof.
  unfold merge_superfan.
  induction compressed as [|c t IH]; simpl; constructor.
  - now repeat split.
  - exact IH.
Qed.

Lemma merge_superfan_map {B} (f : CompressedEdit -> B)
  (compressed : list CompressedEdit) (fans : list Superfan) :
  (forall c c', same_but_flag c c' -> f c' = f c) ->
  map f (merge_superfan compressed fans) = map f compressed.
Proof.
  intros Hf.
  induction (merge_superfan_same compressed fans) as [|c c' l l' Hc _ IH];
    simpl; [reflexivity|].
  f_equal; [now apply Hf|exact IH].
Qed.

Definition compressed_df (df : list Revision) : list CompressedEdit :=
  fst (fst (find_superfans df)).

Definition filtered_df (df : list Revision) : list CompressedEdit :=
  snd (fst (find_superfans df)).

Definition superfans (df : list Revision) : list Superfan :=
  snd (find_superfans df).

Lemma compressed_df_revisions (df : list Revision) :
  map revision_of (compressed_df df) = compress_rows df.
Proof.
  unfold compressed_df, find_superfans. simpl.
  rewrite merge_superfan_map.
  - apply with_edit_size_revisions.
  - intros c c' H. apply H.
Qed.

Lemma compressed_df_edit_size (df : list Revision) :
  map edit_size (compressed_df df) = map edit_size (compress df).
Proof.
  unfold compressed_df, find_superfans. simpl.
  apply merge_superfan_map. intros c c' H. apply H.
Qed.

Lemma compressed_df_merge (df : list Revision) :
  compressed_df df
  = merge_superfan (compress df) (classify_superfans (compress df)).
Proof. reflexivity. Qed.

Lemma Forall2_In_r {X Y} (R : X -> Y -> Prop) (l : list X) (l' : list Y)
  (y : Y) :
  Forall2 R l l' -> In y l' -> exists x, In x l /\ R x y.
Proof.
  induction 1 as [|x y' l l' Hxy _ IH]; [contradiction|].
  intros [->|Hy].
  - exists x. split; [now left|exact Hxy].
  - destruct (IH Hy) as (x' & Hx' & Hr). exists x'. split; [now right|exact Hr].
Qed.

Lemma Forall2_nth_error_r {X Y} (R : X -> Y -> Prop) (l : list X)
  (l' : list Y) (i : nat) (y : Y) :
  Forall2 R l l' -> nth_error l' i = Some y ->
  exists x, nth_error l i = Some x /\ R x y.
Proof.
  intros HF. revert i. induction HF as [|x y' l l' Hxy _ IH]; intros i.
  - destruct i; discriminate.
  - destruct i as [|i]; cbn [nth_error].
    + intros [= <-]. exists x. split; [reflexivity|exact Hxy].
    + apply IH.
Qed.

Lemma compressed_df_days (df : list Revision) (c : CompressedEdit) :
  In c (compressed_df df) ->
  c_date c = date_of (c_timestamp c) /\ day c = c_date c.
Proof.
  rewrite compressed_df_merge. intros Hc.
  destruct (Forall2_In_r _ _ _ _ (merge_superfan_same _ _) Hc)
    as (x & Hx & Er & Ed & _ & Eday).
  pose proof (with_edit_size_days (compress_rows df)) as HF.
  rewrite Forall_forall in HF. destruct (HF x Hx) as [H1 H2].
  assert (Et : c_timestamp c = c_timestamp x)
    by exact (f_equal timestamp Er).
  split; congruence.
Qed.

Lemma compressed_df_nth (df : list Revision) (i : nat) (c : CompressedEdit) :
  nth_error (compressed_df df) i = Some c ->
  exists x, nth_error (compress df) i = Some x /\
            c_userid c = c_userid x /\ c_date c = c_date x /\
            c_timestamp c = c_timestamp x /\
            c_text_length c = c_text_length x /\
            edit_size c = edit_size x /\ day c = day x.
Proof.
  rewrite compressed_df_merge. intros Hc.
  destruct (Forall2_nth_error_r _ _ _ _ _ (merge_superfan_same _ _) Hc)
    as (x & Hx & Er & Ed & Ee & Eday).
  exists x. split; [exact Hx|].
  split; [exact (f_equal userid Er)|].
  split; [exact Ed|].
  split; [exact (f_equal timestamp Er)|].
  split; [exact (f_equal text_length Er)|].
  split; [exact Ee|exact Eday].
Qed.

Lemma unique_length_le {K} `{Ord K} (l : list K) :
  (List.length (unique l) <= List.length l)%nat.
Proof.
  induction l as [|k t IH]; simpl; [lia|].
  pose proof (filter_length_le (fun k' => negb (keqb k' k)) (unique t)).
  lia.
Qed.

Lemma unique_of_NoDup {K} `{Ord K} (l : list K) : NoDup l -> unique l = l.
Proof.
  induction 1 as [|k t Hk _ IH]; simpl; [reflexivity|].
  rewrite IH. f_equal.
  apply forallb_filter_id. apply forallb_forall.
  intros k' Hk'. apply negb_true_iff, keqb_neq. congruence.
Qed.

Lemma unique_perm_length {K} `{Ord K} (l l' : list K) :
  Permutation l l' -> List.length (unique l) = List.length (unique l').
Proof.
  intros Hp. apply Permutation_length, NoDup_Permutation.
  - apply unique_NoDup.
  - apply unique_NoDup.
  - intros k. rewrite !unique_In. split; apply Permutation_in;
      [exact Hp|symmetry; exact Hp].
Qed.

Lemma group_keys_length {A K} `{Ord K} (key : A -> K) (l : list A) :
  List.length (group_keys key l) = List.length (unique (map key l)).
Proof. unfold group_keys. apply sort_on_length. Qed.

Lemma compressed_df_length (df : list Revision) :
  List.length (compressed_df df) = List.length (compress_rows df).
Proof. rewrite <- compressed_df_revisions. now rewrite length_map. Qed.

Lemma compress_length (df : list Revision) :
  List.length (compress df) = List.length (compress_rows df).
Proof.
  unfold compress.
  rewrite <- (with_edit_size_revisions (compress_rows df)) at 2.
  now rewrite length_map.
Qed.

Lemma compressed_df_distinct_pairs (df : list Revision) :
  List.length (compressed_df df)
  = List.length (unique (map (fun r => (userid r, date r)) df)).
Proof.
  rewrite compressed_df_length.
  rewrite <- (length_map user_day (compress_rows df)).
  rewrite (Permutation_length (compress_rows_keys df)).
  rewrite group_keys_length. apply unique_perm_length.
  apply Permutation_map. unfold sort_values_userid_date_timestamp.
  apply sort_on_perm.
Qed.

(** C3.  The compressed table holds at most one row per contributor and
    calendar day (the pairs of user and day of its rows are pairwise
    distinct, and each pair of the input is there), and the row kept for a
    pair is a revision of the input whose timestamp is the latest among the
    revisions of that contributor on that day. *)
Theorem compress_one_row_per_user_day (df : list Revision) :
  NoDup (map (fun c => (c_userid c, c_date c)) (compressed_df df)) /\
  (forall c, In c (compressed_df df) ->
     c_date c = date_of (c_timestamp c) /\
     In (mkRevision (c_userid c) (c_timestamp c) (c_text_length c)) df /\
     forall r, In r df -> userid r = c_userid c -> date r = c_date c ->
               timestamp r <= c_timestamp c) /\
  (forall r, In r df ->
     exists c, In c (compressed_df df) /\
               c_userid c = userid r /\ c_date c = date r).
Proof.
  assert (Hkey : forall c, In c (compressed_df df) ->
                           (c_userid c, c_date c) = user_day (revision_of c)).
  { intros c Hc. apply compressed_df_days in Hc. destruct Hc as [Hc _].
    unfold user_day, date. simpl. now rewrite Hc. }
  split; [|split].
  - rewrite (map_ext_in _ (fun c => user_day (revision_of c)) _ Hkey).
    rewrite <- (map_map revision_of user_day), compressed_df_revisions.
    apply compress_rows_NoDup.
  - intros c Hc.
    assert (Hr : In (revision_of c) (compress_rows df)).
    { rewrite <- compressed_df_revisions. now apply in_map. }
    apply compress_rows_In in Hr. destruct Hr as [Hin Hmax].
    pose proof (compressed_df_days df c Hc) as [Hd _].
    split; [exact Hd|]. split; [exact Hin|].
    intros r Hr Hu Hdr. apply (Hmax r Hr Hu).
    unfold date at 2. simpl. congruence.
  - intros r Hr.
    destruct (compress_rows_covers df r Hr) as (r' & Hr' & E).
    rewrite <- compressed_df_revisions in Hr'.
    apply in_map_iff in Hr'. destruct Hr' as (c & <- & Hc).
    exists c. split; [exact Hc|].
    rewrite <- (Hkey c Hc) in E. now injection E.
Qed.

(** C4.  On a non-empty input the compressed table is in chronological
    order and has one row for each pair of contributor and day of the
    input; its first row has the edit size 72, and the edit size of every
    later row is its text length minus the text length of the row just
    before it, whoever the contributors are. *)
Theorem compress_edit_size (df : list Revision) :
  df <> [] ->
  StronglySorted (fun a b => c_timestamp a <= c_timestamp b)
    (compressed_df df) /\
  List.length (compressed_df df)
  = List.length (unique (map (fun r => (userid r, date r)) df)) /\
  (exists c rest, compressed_df df = c :: rest /\ edit_size c = 72) /\
  (forall i a b,
      nth_error (compressed_df df) i = Some a ->
      nth_error (compressed_df df) (S i) = Some b ->
      edit_size b = c_text_length b - c_text_length a).
Proof.
  intros Hdf. split; [|split; [|split]].
  - pose proof (compress_rows_sorted df) as Hs.
    rewrite <- compressed_df_revisions in Hs.
    apply StronglySorted_map_inv in Hs. exact Hs.
  - apply compressed_df_distinct_pairs.
  - apply compress_rows_nonempty in Hdf.
    unfold compressed_df, find_superfans, compress. cbn [fst snd].
    destruct (compress_rows df) as [|r rows]; [congruence|].
    rewrite with_edit_size_cons. cbn [merge_superfan map edit_size].
    eauto.
  - assert (Hadj : forall i x y,
               nth_error (compress df) i = Some x ->
               nth_error (compress df) (S i) = Some y ->
               edit_size y = c_text_length y - c_text_length x).
    { unfold compress. destruct (compress_rows df) as [|r rows].
      - intros i x y Hx. destruct i; discriminate.
      - rewrite with_edit_size_cons.
        destruct (edits_from_adjacent (text_length r) rows) as [H0 HS].
        intros [|i] x y; simpl.
        + intros [= <-] Hy. simpl. now apply H0.
        + apply HS. }
    intros i a b Ha Hb.
    apply compressed_df_nth in Ha, Hb.
    destruct Ha as (x & Hx & _ & _ & _ & Ea & _).
    destruct Hb as (y & Hy & _ & _ & _ & Eb1 & Eb2 & _).
    rewrite Ea, Eb1, Eb2. eapply Hadj; eassumption.
Qed.

Lemma compress_edit_size_witness :
  scenario <> [] /\
  List.length (compressed_df scenario) = 2%nat /\
  exists a b,
    nth_error (compressed_df scenario) 0 = Some a /\
    nth_error (compressed_df scenario) 1 = Some b /\
    edit_size a = 72 /\
    edit_size b = c_text_length b - c_text_length a /\
    c_text_length b - c_text_length a = 10.
Proof.
  assert (H : scenario <> []) by discriminate.
  destruct (compress_edit_size scenario H) as (_ & Hlen & _ & Hadj).
  split; [exact H|]. split.
  - rewrite Hlen. vm_compute. reflexivity.
  - exists (mkCompressedEdit "A" day1 (day1 * ns_per_day + 3000) 200 72
              day1 (Some true)),
           (mkCompressedEdit "B" (day1 + 1)
              ((day1 + 1) * ns_per_day + 500) 210 10 (day1 + 1)
              (Some true)).
    assert (Ha : nth_error (compressed_df scenario) 0
                 = Some (mkCompressedEdit "A" day1
                           (day1 * ns_per_day + 3000) 200 72 day1
                           (Some true)))
      by (vm_compute; reflexivity).
    assert (Hb : nth_error (compressed_df scenario) 1
                 = Some (mkCompressedEdit "B" (day1 + 1)
                           ((day1 + 1) * ns_per_day + 500) 210 10
                           (day1 + 1) (Some true)))
      by (vm_compute; reflexivity).
    split; [exact Ha|]. split; [exact Hb|]. split; [reflexivity|].
    split; [exact (Hadj 0%nat _ _ Ha Hb)|reflexivity].
Defined.

(** C5.  Three revisions by "A" on one day, of lengths 100, 150 and 200,
    and one by "B" on the next day, of length 210: the compressed table has
    exactly two rows, (A, day 1, 200, edit size 72) and (B, day 2, 210,
    edit size 10). *)
Theorem compress_scenario :
  map (fun c => (c_userid c, c_date c, c_text_length c, edit_size c))
      (compressed_df scenario)
  = [ ("A", day1, 200, 72); ("B", day1 + 1, 210, 10) ].
Proof. vm_compute. reflexivity. Qed.

(** ** Quantiles *)

Lemma quantile_some (q : Q) (xs : list Z) :
  xs <> [] -> exists v, quantile q xs = Some v.
Proof.
  destruct xs as [|x t]; [congruence|]. intros _.
  unfold quantile. eauto.
Qed.

Lemma nth_sorted_le (xs : list Z) (M : Z) (i : nat) :
  (forall x, In x xs -> x <= M) -> (i < List.length xs)%nat ->
  nth i (sort_on (fun x => x) xs) 0 <= M.
Proof.
  intros HM Hi. apply HM. apply (sort_on_In (fun x : Z => x)).
  apply nth_In. now rewrite sort_on_length.
Qed.

Lemma interpolate_le (a b g m : Q) :
  (0 <= g)%Q -> (g <= 1)%Q -> (a <= m)%Q -> (b <= m)%Q ->
  (a + g * (b - a) <= m)%Q.
Proof.
  intros Hg0 Hg1 Ha Hb.
  assert (H1 : (0 <= (1 - g) * (m - a))%Q)
    by (apply Qmult_le_0_compat; lra).
  assert (H2 : (0 <= g * (m - b))%Q)
    by (apply Qmult_le_0_compat; lra).
  lra.
Qed.

(** A quantile of order between 0 and 1 is at most the largest value. *)
Lemma quantile_le_max (q : Q) (xs : list Z) (M : Z) :
  (0 <= q)%Q -> (q <= 1)%Q -> xs <> [] ->
  (forall x, In x xs -> x <= M) ->
  exists v, quantile q xs = Some v /\ (v <= inject_Z M)%Q.
Proof.
  intros Hq0 Hq1 Hxs HM.
  destruct xs as [|x0 t]; [congruence|].
  unfold quantile.
  set (xs := x0 :: t) in *.
  set (n := Z.of_nat (List.length xs)).
  set (pos := (q * inject_Z (n - 1))%Q).
  set (lo := Qfloor pos).
  assert (Hn : 1 <= n) by (unfold n, xs; simpl List.length; lia).
  assert (Hn1 : (0 <= inject_Z (n - 1))%Q).
  { change 0%Q with (inject_Z 0). rewrite <- Zle_Qle. lia. }
  assert (Hpos0 : (0 <= pos)%Q) by (apply Qmult_le_0_compat; assumption).
  assert (Hpos1 : (pos <= inject_Z (n - 1))%Q).
  { unfold pos. rewrite <- (Qmult_1_l (inject_Z (n - 1))) at 2.
    apply Qmult_le_compat_r; assumption. }
  assert (Hlo0 : 0 <= lo).
  { change 0 with (Qfloor (inject_Z 0)). now apply Qfloor_resp_le. }
  assert (Hlo1 : lo <= n - 1).
  { rewrite <- (Qfloor_Z (n - 1)). now apply Qfloor_resp_le. }
  eexists. split; [reflexivity|].
  match goal with
  | |- context [inject_Z (?b - ?a)] =>
      replace (inject_Z (b - a)) with (inject_Z b - inject_Z a)%Q
        by (unfold Z.sub, Qminus;
            now rewrite inject_Z_plus, inject_Z_opp)
  end.
  apply interpolate_le.
  - pose proof (Qfloor_le pos). fold lo in H. lra.
  - pose proof (Qlt_floor pos) as H. fold lo in H.
    rewrite inject_Z_plus in H. change (inject_Z 1) with 1%Q in H. lra.
  - rewrite <- Zle_Qle. apply nth_sorted_le; [assumption|].
    fold xs. apply Nat2Z.inj_lt. fold n. lia.
  - rewrite <- Zle_Qle. apply nth_sorted_le; [assumption|].
    fold xs. apply Nat2Z.inj_lt. fold n. lia.
Qed.

(** ** [find_superfans]: the outlier filter *)

(** A page of length 1000 that is blanked by the next revision. *)
Definition blanked : list Revision :=
  [ mkRevision "A" (day1 * ns_per_day) 1000;
    mkRevision "B" ((day1 + 1) * ns_per_day) 0 ].

(** A page of three revisions with the edit sizes 72, -28 and -62. *)
Definition shrinking : list Revision :=
  [ mkRevision "A" (day1 * ns_per_day) 1000;
    mkRevision "B" ((day1 + 1) * ns_per_day) 972;
    mkRevision "C" ((day1 + 2) * ns_per_day) 910 ].

(** C1, as the code has it.  A row of the compressed table is kept by the
    filter exactly when the absolute value of its edit size is at most the
    95th percentile of the edit sizes themselves, signed, over the whole
    compressed table, the percentile being the float64 value pandas
    computes; the rows kept stay in their order.  On the edit sizes 72,
    -28 and -62 that value is 61.999999999999993, the float64 just under
    62, and only the row of -28 is kept; on 72 and -1000 it is 18.4 and no row is
    kept. *)
Theorem filter_outliers_threshold (df : list Revision) (c : CompressedEdit) :
  filtered_df df
  = filter (fun c => Float64.abs_le (edit_size c)
                       (Float64.series_quantile Float64.q95
                          (map edit_size (compressed_df df))))
      (compressed_df df) /\
  (In c (filtered_df df) <->
   In c (compressed_df df) /\
   PrimFloat.leb
     (PrimFloat.abs (Float64.of_int (edit_size c)))
     (Float64.series_quantile Float64.q95
        (map edit_size (compressed_df df))) = true) /\
  map edit_size (compressed_df shrinking) = [72; -28; -62] /\
  Float64.series_quantile Float64.q95 [72; -28; -62]
  = PrimFloat.next_down (Float64.of_int 62) /\
  map edit_size (filtered_df shrinking) = [-28] /\
  map edit_size (compressed_df blanked) = [72; -1000] /\
  filtered_df blanked = [].
Proof.
  assert (E : filtered_df df = filter_outliers (compressed_df df))
    by reflexivity.
  split; [exact E|]. split.
  - rewrite E. unfold filter_outliers. rewrite filter_In. reflexivity.
  - repeat split; vm_compute; reflexivity.
Qed.

(** C1, as the specification has it, fails.  The edit sizes of [blanked]
    are 72 and -1000; the 95th percentile of their absolute values is
    953.6, so the first row is within it, and the filter drops that row:
    its threshold is the percentile of the signed sizes, 18.4. *)
Lemma filter_outliers_not_absolute_quantile :
  exists c,
    In c (compressed_df blanked) /\
    Float64.abs_le (edit_size c)
      (Float64.series_quantile Float64.q95
         (map (fun c => Z.abs (edit_size c)) (compressed_df blanked)))
    = true /\
    ~ In c (filtered_df blanked).
Proof.
  exists (mkCompressedEdit "A" day1 (day1 * ns_per_day) 1000 72 day1
            (Some true)).
  split; [|split].
  - vm_compute. now left.
  - vm_compute. reflexivity.
  - vm_compute. intros [].
Qed.

(** ** [find_superfans]: the classification *)

(** The number of distinct days on which a contributor has a revision. *)
Definition day_count (df : list Revision) (u : string) : Z :=
  Z.of_nat
    (List.length
       (unique (map date (filter (fun r => keqb (userid r) u) df)))).

Definition agg_user (a : (Z * string) * Z) : string := snd (fst a).

(** The users of [agg] in the order of first appearance, and the number of
    rows of [agg] a user has. *)
Definition agg_users (compressed : list CompressedEdit) : list string :=
  unique (map agg_user (agg_num_edits compressed)).

Definition num_days (compressed : list CompressedEdit) (u : string) : Z :=
  match lookup u (size (groupby agg_user (agg_num_edits compressed))) with
  | Some n => n
  | None => 0
  end.

Lemma classify_superfans_rows (compressed : list CompressedEdit) :
  classify_superfans compressed
  = map (fun u =>
           mkSuperfan u (num_days compressed u)
             (ge_quantile (num_days compressed u)
                (quantile (95 # 100)
                   (map (num_days compressed) (agg_users compressed)))))
      (agg_users compressed).
Proof.
  unfold classify_superfans. fold agg_user. fold (agg_users compressed).
  rewrite !map_map. reflexivity.
Qed.

Lemma classify_superfans_num_edits (compressed : list CompressedEdit) :
  map num_edits (classify_superfans compressed)
  = map (num_days compressed) (agg_users compressed).
Proof. rewrite classify_superfans_rows, map_map. reflexivity. Qed.

Lemma classify_superfans_userid (compressed : list CompressedEdit) :
  map s_userid (classify_superfans compressed) = agg_users compressed.
Proof. rewrite classify_superfans_rows, map_map. apply map_id. Qed.

Lemma NoDup_map_filter {X Y Y'} (f : X -> Y) (g : X -> Y') (p : X -> bool)
  (l : list X) :
  NoDup (map g l) ->
  (forall x y, p x = true -> p y = true -> f x = f y -> g x = g y) ->
  NoDup (map f (filter p l)).
Proof.
  intros Hnd Hinj. induction l as [|x t IH]; simpl; [constructor|].
  inversion Hnd as [|? ? Hx Ht]; subst.
  destruct (p x) eqn:Ep; [|now apply IH].
  simpl. constructor; [|now apply IH].
  intros Hin. apply in_map_iff in Hin. destruct Hin as (y & Ey & Hy).
  apply filter_In in Hy. destruct Hy as [Hy Epy].
  apply Hx. apply in_map_iff. exists y. split; [|exact Hy].
  now apply Hinj.
Qed.

Lemma agg_keys (compressed : list CompressedEdit) :
  map fst (agg_num_edits compressed)
  = group_keys (fun c => (day c, c_userid c)) compressed.
Proof. unfold agg_num_edits. now rewrite size_keys, groupby_keys. Qed.

Lemma size_In_length {A K} `{Ord K} (key : A -> K) (l : list A) (k : K) :
  In k (group_keys key l) ->
  lookup k (size (groupby key l))
  = Some (Z.of_nat (List.length (filter (has_key key k) l))).
Proof.
  intros Hk. apply lookup_NoDup.
  - rewrite size_keys, groupby_keys. apply group_keys_NoDup.
  - unfold size. apply in_map_iff.
    exists (k, filter (has_key key k) l). split; [reflexivity|].
    now apply groupby_In.
Qed.

(** The rows of [compress df], seen from the input. *)
Lemma compress_In_day (df : list Revision) (d : Z) (u : string) :
  (exists c, In c (compress df) /\ day c = d /\ c_userid c = u) <->
  (exists r, In r df /\ date r = d /\ userid r = u).
Proof.
  unfold compress. split.
  - intros (c & Hc & Hd & Hu).
    pose proof (with_edit_size_days (compress_rows df)) as HF.
    rewrite Forall_forall in HF. destruct (HF c Hc) as [Hd1 Hd2].
    assert (Hr : In (revision_of c) (compress_rows df)).
    { rewrite <- (with_edit_size_revisions (compress_rows df)).
      now apply in_map. }
    apply compress_rows_In in Hr. destruct Hr as [Hr _].
    exists (revision_of c). split; [exact Hr|].
    unfold date. simpl. split; congruence.
  - intros (r & Hr & Hd & Hu).
    destruct (compress_rows_covers df r Hr) as (r' & Hr' & E).
    rewrite <- (with_edit_size_revisions (compress_rows df)) in Hr'.
    apply in_map_iff in Hr'. destruct Hr' as (c & <- & Hc).
    pose proof (with_edit_size_days (compress_rows df)) as HF.
    rewrite Forall_forall in HF. destruct (HF c Hc) as [Hd1 Hd2].
    exists c. split; [exact Hc|].
    unfold user_day, date in E. simpl in E. injection E as Eu Ed.
    unfold date in Hd. split; congruence.
Qed.

Lemma agg_users_In (df : list Revision) (u : string) :
  In u (agg_users (compress df)) <-> In u (map userid df).
Proof.
  unfold agg_users. rewrite unique_In. unfold agg_user.
  rewrite <- (map_map fst snd), agg_keys, !in_map_iff. split.
  - intros ([d u'] & Eu & Hk). simpl in Eu. subst u'.
    apply group_keys_In in Hk. destruct Hk as (c & Hc & [= Hd Hu]).
    destruct (proj1 (compress_In_day df d u)) as (r & Hr & _ & Hru);
      [now exists c|].
    now exists r.
  - intros (r & Hu & Hr).
    destruct (proj2 (compress_In_day df (date r) u)) as (c & Hc & Hd & Hcu);
      [now exists r|].
    exists (date r, u). split; [reflexivity|].
    apply group_keys_In. exists c. split; [exact Hc|]. congruence.
Qed.

Lemma num_days_day_count (df : list Revision) (u : string) :
  In u (map userid df) -> num_days (compress df) u = day_count df u.
Proof.
  intros Hu. unfold num_days.
  rewrite size_In_length.
  2:{ apply group_keys_In. apply agg_users_In in Hu.
      unfold agg_users in Hu. apply unique_In, in_map_iff in Hu.
      destruct Hu as (a & Ea & Ha). now exists a. }
  unfold day_count. f_equal.
  set (mine := filter (has_key agg_user u) (agg_num_edits (compress df))).
  rewrite <- (length_map (fun a => fst (fst a)) mine).
  apply Permutation_length, NoDup_Permutation.
  - apply NoDup_map_filter with (g := fst).
    + rewrite agg_keys. apply group_keys_NoDup.
    + intros [[d1 u1] n1] [[d2 u2] n2]. rewrite !has_key_iff.
      unfold agg_user. simpl. congruence.
  - apply unique_NoDup.
  - intros d. rewrite unique_In. unfold mine.
    rewrite !in_map_iff. split.
    + intros ([[d' u'] n] & Ed & Ha). simpl in Ed. subst d'.
      apply filter_In in Ha. destruct Ha as [Ha Hk].
      apply has_key_iff in Hk. unfold agg_user in Hk. simpl in Hk. subst u'.
      assert (Hkey : In (d, u) (map fst (agg_num_edits (compress df)))).
      { apply in_map_iff. now exists (d, u, n). }
      rewrite agg_keys in Hkey. apply group_keys_In in Hkey.
      destruct Hkey as (c & Hc & [= Hd Hcu]).
      destruct (proj1 (compress_In_day df d u)) as (r & Hr & Hrd & Hru);
        [now exists c|].
      exists r. split; [exact Hrd|]. apply filter_In. split; [exact Hr|].
      now apply keqb_eq.
    + intros (r & Hrd & Hr). apply filter_In in Hr.
      destruct Hr as [Hr Hru]. apply keqb_eq in Hru.
      destruct (proj2 (compress_In_day df d u)) as (c & Hc & Hd & Hcu);
        [now exists r|].
      assert (Hkey : In (d, u) (map fst (agg_num_edits (compress df)))).
      { rewrite agg_keys. apply group_keys_In. exists c.
        split; [exact Hc|]. congruence. }
      apply in_map_iff in Hkey. destruct Hkey as ([[d' u'] n] & E & Ha).
      simpl in E. injection E as -> ->.
      exists (d, u, n). split; [reflexivity|].
      apply filter_In. split; [exact Ha|]. now apply has_key_iff.
Qed.

Lemma superfans_classify (df : list Revision) :
  superfans df = classify_superfans (compress df).
Proof. reflexivity. Qed.

Lemma superfan_users (df : list Revision) (u : string) :
  In u (map userid df) -> In u (map s_userid (superfans df)).
Proof.
  rewrite superfans_classify, classify_superfans_userid.
  apply agg_users_In.
Qed.

(** C2.  The table of superfans has one row per contributor of the input;
    the row gives the number of distinct days the contributor was active,
    and its flag is set exactly when that number is at least the 95th
    percentile, linearly interpolated, of these numbers over all the
    contributors. *)
Theorem superfan_iff_at_least_percentile (df : list Revision) :
  NoDup (map s_userid (superfans df)) /\
  (forall u, In u (map s_userid (superfans df)) <-> In u (map userid df)) /\
  (forall s, In s (superfans df) ->
     num_edits s = day_count df (s_userid s) /\
     (s_superfan s = true <->
      exists q, quantile (95 # 100) (map num_edits (superfans df)) = Some q
                /\ (q <= inject_Z (num_edits s))%Q)).
Proof.
  rewrite superfans_classify, classify_superfans_userid,
    classify_superfans_num_edits.
  split; [apply unique_NoDup|].
  split; [apply agg_users_In|].
  intros s. rewrite classify_superfans_rows, in_map_iff.
  intros (u & <- & Hu). cbn [num_edits s_userid s_superfan]. split.
  - apply num_days_day_count. apply agg_users_In. exact Hu.
  - unfold ge_quantile.
    destruct (quantile (95 # 100)
                (map (num_days (compress df)) (agg_users (compress df))))
      as [q|].
    + rewrite Qle_bool_iff. split.
      * intros Hq. exists q. split; [reflexivity|exact Hq].
      * intros (q' & Eq & Hq). injection Eq as <-. exact Hq.
    + split; [discriminate|]. intros (q' & H & _). discriminate H.
Qed.

Lemma exists_max {X} (f : X -> Z) (l : list X) :
  l <> [] -> exists x, In x l /\ forall y, In y l -> f y <= f x.
Proof.
  induction l as [|a t IH]; [congruence|]. intros _.
  destruct t as [|b t'].
  - exists a. split; [now left|]. intros y [->|[]]. lia.
  - destruct IH as (x & Hx & Hmax); [discriminate|].
    destruct (Z_le_gt_dec (f a) (f x)).
    + exists x. split; [now right|].
      intros y [->|Hy]; [assumption|now apply Hmax].
    + exists a. split; [now left|].
      intros y [->|Hy]; [lia|]. specialize (Hmax y Hy). lia.
Qed.

(** C8.  On a non-empty input some contributor is a superfan: one whose
    number of active days is the largest has the flag, the 95th percentile
    being at most the largest of the numbers. *)
Theorem superfans_nonempty (df : list Revision) :
  df <> [] ->
  exists s, In s (superfans df) /\ s_superfan s = true /\
            forall s', In s' (superfans df) -> num_edits s' <= num_edits s.
Proof.
  intros Hdf.
  assert (Hne : superfans df <> []).
  { destruct df as [|r t]; [congruence|]. intros E.
    assert (Hu : In (userid r) (map s_userid (superfans (r :: t)))).
    { apply (superfan_users (r :: t)). now left. }
    rewrite E in Hu. exact Hu. }
  destruct (exists_max num_edits (superfans df) Hne) as (s & Hs & Hmax).
  exists s. split; [exact Hs|]. split; [|exact Hmax].
  destruct (quantile_le_max (95 # 100) (map num_edits (superfans df))
              (num_edits s)) as (q & Eq & Hq).
  - discriminate.
  - discriminate.
  - intros E. apply map_eq_nil in E. contradiction.
  - intros x Hx. apply in_map_iff in Hx. destruct Hx as (s' & <- & Hs').
    apply Hmax. exact Hs'.
  - revert Hs Hq. rewrite superfans_classify, classify_superfans_rows.
    rewrite superfans_classify, classify_superfans_num_edits in Eq.
    rewrite in_map_iff. intros (u & <- & Hu).
    cbn [s_superfan num_edits]. intros Hq.
    rewrite Eq. unfold ge_quantile. apply Qle_bool_iff. exact Hq.
Qed.

Lemma superfans_nonempty_witness :
  scenario <> [] /\
  exists s, In s (superfans scenario) /\ s_superfan s = true /\
            forall s', In s' (superfans scenario) ->
                       num_edits s' <= num_edits s.
Proof.
  assert (H : scenario <> []) by discriminate.
  split; [exact H|]. exact (superfans_nonempty scenario H).
Defined.

(** ** [cummulative_edits] *)

Definition sum_Z (xs : list Z) : Z := fold_right Z.add 0 xs.

Lemma sum_Z_perm (xs ys : list Z) : Permutation xs ys -> sum_Z xs = sum_Z ys.
Proof. induction 1; simpl in *; lia. Qed.

Lemma count_key_once {K} `{Ord K} (a : K) (ks : list K) :
  NoDup ks -> In a ks ->
  sum_Z (map (fun k => if keqb a k then 1 else 0) ks) = 1.
Proof.
  induction ks as [|k t IH]; simpl; [contradiction|].
  intros Hnd Ha. inversion Hnd as [|? ? Hk Ht]; subst.
  destruct (keqb a k) eqn:E.
  - apply keqb_eq in E. subst k.
    assert (Hz : sum_Z (map (fun k => if keqb a k then 1 else 0) t) = 0).
    { clear IH Ha Hnd Ht. induction t as [|b t IH]; [reflexivity|]. simpl.
      destruct (keqb a b) eqn:Eb.
      - apply keqb_eq in Eb. subst b. exfalso. apply Hk. now left.
      - apply IH. intros Hin. apply Hk. now right. }
    lia.
  - apply keqb_neq in E. destruct Ha as [->|Ha]; [congruence|].
    rewrite IH by assumption. lia.
Qed.

(** The sizes of the groups add up to the number of rows. *)
Lemma group_sizes_total {A K} `{Ord K} (key : A -> K) (l : list A)
  (ks : list K) :
  NoDup ks -> (forall x, In x l -> In (key x) ks) ->
  sum_Z (map (fun k => Z.of_nat (List.length (filter (has_key key k) l))) ks)
  = Z.of_nat (List.length l).
Proof.
  intros Hnd. induction l as [|x t IH]; intros Hks.
  - clear Hnd Hks. simpl.
    induction ks as [|k ks' IHk]; [reflexivity|].
    simpl in *. now rewrite IHk.
  - assert (E : forall k,
               Z.of_nat (List.length (filter (has_key key k) (x :: t)))
               = (if keqb (key x) k then 1 else 0)
                 + Z.of_nat (List.length (filter (has_key key k) t))).
    { intros k. simpl. unfold has_key at 1.
      destruct (keqb (key x) k); simpl List.length; lia. }
    rewrite (map_ext _ _ E).
    assert (Hsplit : forall (f g : K -> Z) (js : list K),
               sum_Z (map (fun k => f k + g k) js)
               = sum_Z (map f js) + sum_Z (map g js)).
    { intros f g js. induction js as [|j js' IHj]; simpl; lia. }
    rewrite Hsplit, IH, count_key_once.
    + simpl List.length. lia.
    + exact Hnd.
    + apply Hks. now left.
    + intros y Hy. apply Hks. now right.
Qed.

Lemma groupby_sizes_total {A K} `{Ord K} (key : A -> K) (l : list A) :
  sum_Z (map snd (size (groupby key l))) = Z.of_nat (List.length l).
Proof.
  unfold size, groupby. rewrite !map_map. simpl.
  apply (group_sizes_total key l).
  - apply (group_keys_NoDup key).
  - intros x Hx. apply (group_keys_In key). now exists x.
Qed.

(** The rows of the result after a running total of [acc]. *)
Definition rows_from (acc : Z) (bd : list (Z * Z)) : list PeriodicCount :=
  map (fun p => mkPeriodicCount (fst (fst p)) (snd (fst p)) (snd p))
      (combine bd (cumsum_from acc (map snd bd))).

Lemma rows_from_cons (acc k n : Z) (bd : list (Z * Z)) :
  rows_from acc ((k, n) :: bd)
  = mkPeriodicCount k n (acc + n) :: rows_from (acc + n) bd.
Proof. reflexivity. Qed.

Lemma rows_from_columns (acc : Z) (bd : list (Z * Z)) :
  map (fun r => (period_start r, revisions r)) (rows_from acc bd) = bd.
Proof.
  revert acc. induction bd as [|[k n] bd IH]; intros acc; [reflexivity|].
  rewrite rows_from_cons. simpl. now rewrite IH.
Qed.

Lemma last_row_cons {A} (x : A) (l : list A) :
  last_row (x :: l) = match last_row l with
                      | Some y => Some y
                      | None => Some x
                      end.
Proof.
  unfold last_row. simpl. destruct (rev l); reflexivity.
Qed.

Lemma rows_from_last (acc : Z) (bd : list (Z * Z)) (r : PeriodicCount) :
  last_row (rows_from acc bd) = Some r ->
  cumulative_revisions r = acc + sum_Z (map snd bd).
Proof.
  revert acc. induction bd as [|[k n] bd IH]; intros acc.
  - discriminate.
  - rewrite rows_from_cons, last_row_cons.
    destruct (last_row (rows_from (acc + n) bd)) as [y|] eqn:Ey.
    + intros [= <-]. rewrite (IH _ Ey). simpl. lia.
    + intros [= <-]. simpl.
      destruct bd as [|[k' n'] bd'].
      * simpl. lia.
      * rewrite rows_from_cons, last_row_cons in Ey.
        destruct (last_row (rows_from (acc + n + n') bd')); discriminate.
Qed.

(** The table before the running total: period starts and counts. *)
Definition period_counts (starts : list Z) : list (Z * Z) :=
  sort_on fst (size (groupby (fun s => s) starts)).

Lemma period_table_rows (starts : list Z) :
  period_table starts = rows_from 0 (period_counts starts).
Proof. reflexivity. Qed.

Lemma period_counts_In (starts : list Z) (k n : Z) :
  In (k, n) (period_counts starts) ->
  In k starts /\
  n = Z.of_nat (List.length (filter (fun s => s =? k) starts)).
Proof.
  unfold period_counts. rewrite sort_on_In. unfold size.
  rewrite in_map_iff. intros ([k' g] & [= -> <-] & Hg).
  apply groupby_In in Hg. destruct Hg as [Hk ->]. split.
  - apply group_keys_In in Hk. destruct Hk as (x & Hx & <-). exact Hx.
  - do 2 f_equal. apply filter_ext. intros s.
    unfold has_key, keqb. simpl.
    destruct (Z.eqb_spec s k) as [->|Hne].
    + now rewrite Z.leb_refl.
    + destruct (Z.leb_spec s k), (Z.leb_spec k s); simpl; try reflexivity.
      lia.
Qed.

Lemma period_counts_sorted (starts : list Z) :
  StronglySorted (fun a b => fst a < fst b) (period_counts starts).
Proof.
  assert (Hnd : NoDup (map fst (period_counts starts))).
  { unfold period_counts.
    eapply Permutation_NoDup.
    - apply Permutation_map. symmetry. apply sort_on_perm.
    - rewrite size_keys, groupby_keys. apply group_keys_NoDup. }
  pose proof (sort_on_sorted fst (size (groupby (fun s => s) starts)))
    as Hs.
  fold (period_counts starts) in Hs.
  induction Hs as [|a l Hs IH Ha]; [constructor|].
  simpl in Hnd. inversion Hnd as [|? ? Hna Hnd']; subst.
  constructor; [now apply IH|].
  rewrite Forall_forall in *. intros b Hb.
  specialize (Ha b Hb). unfold key_le in Ha. simpl in Ha.
  apply Z.leb_le in Ha.
  assert (fst a <> fst b).
  { intros E. apply Hna. rewrite E. now apply in_map. }
  lia.
Qed.

(** C6.  Whatever the timestamps and the bucketing of the period, the
    counts of the buckets add up to the number of input rows, the last
    cumulative value is that number, and the buckets come in strictly
    ascending order of their start.  Each bucket counts the timestamps
    that fall in it, and no bucket is empty. *)
Theorem cummulative_edits_totals (start_time : Z -> Z)
  (timestamps : list Z) :
  sum_Z (map revisions (cummulative_edits start_time timestamps))
  = Z.of_nat (List.length timestamps) /\
  (forall r, last_row (cummulative_edits start_time timestamps) = Some r ->
             cumulative_revisions r = Z.of_nat (List.length timestamps)) /\
  (timestamps <> [] ->
   exists r, last_row (cummulative_edits start_time timestamps) = Some r) /\
  StronglySorted (fun a b => period_start a < period_start b)
    (cummulative_edits start_time timestamps) /\
  (forall r, In r (cummulative_edits start_time timestamps) ->
     0 < revisions r /\
     revisions r
     = Z.of_nat (List.length
                   (filter (fun t => start_time t =? period_start r)
                      timestamps))).
Proof.
  unfold cummulative_edits. rewrite period_table_rows.
  set (starts := map start_time timestamps).
  pose proof (rows_from_columns 0 (period_counts starts)) as Hcols.
  assert (Htotal : sum_Z (map snd (period_counts starts))
                   = Z.of_nat (List.length timestamps)).
  { unfold period_counts.
    rewrite (sum_Z_perm _ _ (Permutation_map snd (sort_on_perm fst _))).
    rewrite groupby_sizes_total. unfold starts. now rewrite length_map. }
  assert (Hrev : map revisions (rows_from 0 (period_counts starts))
                 = map snd (period_counts starts)).
  { rewrite <- Hcols at 2. rewrite map_map. reflexivity. }
  assert (Hrow : forall r, In r (rows_from 0 (period_counts starts)) ->
                           In (period_start r, revisions r)
                             (period_counts starts)).
  { intros r Hr. rewrite <- Hcols.
    apply (in_map (fun r => (period_start r, revisions r))), Hr. }
  split; [|split; [|split; [|split]]].
  - now rewrite Hrev.
  - intros r Hr. apply rows_from_last in Hr. lia.
  - intros Hne. apply last_row_some. intros E.
    rewrite E in Hrev. simpl in Hrev.
    rewrite <- Hrev in Htotal. simpl in Htotal.
    destruct timestamps; [congruence|discriminate].
  - pose proof (period_counts_sorted starts) as Hs.
    rewrite <- Hcols in Hs.
    apply StronglySorted_map_inv in Hs. exact Hs.
  - intros r Hr. apply Hrow, period_counts_In in Hr.
    destruct Hr as [Hin Hn].
    assert (E : List.length (filter (fun s => s =? period_start r) starts)
                = List.length
                    (filter (fun t => start_time t =? period_start r)
                       timestamps)).
    { unfold starts. clear.
      induction timestamps as [|t ts IH]; [reflexivity|]. simpl.
      destruct (start_time t =? period_start r); simpl; now rewrite IH. }
    rewrite <- E. split; [|exact Hn].
    rewrite Hn.
    assert (Hf : In (period_start r)
                   (filter (fun s => s =? period_start r) starts)).
    { apply filter_In. split; [exact Hin|]. apply Z.eqb_refl. }
    destruct (filter (fun s => s =? period_start r) starts);
      [contradiction|simpl List.length; lia].
Qed.

(** ** The caller's table *)

Lemma bind_ok {A B} (m : M A) (k : A -> M B) (h h' : heap) (a : A) :
  m h = (Ok a, h') -> bind m k h = k a h'.
Proof. unfold bind. now intros ->. Qed.

Lemma lift_some {A} (e : error) (o : option A) (a : A) (h : heap) :
  o = Some a -> lift e o h = (Ok a, h).
Proof. now intros ->. Qed.

Lemma getitem_ok (l : loc) (name : string) (h : heap) (df : DataFrame)
  (c : column) :
  nth_error h l = Some df -> get_col name df = Some c ->
  getitem l name h = (Ok c, h).
Proof.
  intros Hl Hc. unfold getitem, load.
  rewrite (bind_ok _ _ h h df) by now apply lift_some.
  now apply lift_some.
Qed.

Lemma setitem_ok (l : loc) (name : string) (c : column) (h : heap)
  (df : DataFrame) :
  nth_error h l = Some df ->
  setitem l name c h = (Ok tt, set_nth l (set_col name c df) h).
Proof.
  intros Hl. unfold setitem, load.
  now rewrite (bind_ok _ _ h h df) by now apply lift_some.
Qed.

Lemma set_nth_same {A} (l : nat) (x y : A) (h : list A) :
  nth_error h l = Some y -> nth_error (set_nth l x h) l = Some x.
Proof.
  revert l. induction h as [|z t IH]; intros [|l]; simpl;
    try discriminate; auto.
Qed.

Lemma set_nth_other {A} (l l' : nat) (x : A) (h : list A) :
  l' <> l -> nth_error (set_nth l x h) l' = nth_error h l'.
Proof.
  revert l l'. induction h as [|z t IH]; intros [|l] [|l'] Hne; simpl;
    try reflexivity; try congruence.
  apply IH. congruence.
Qed.

Lemma set_nth_twice {A} (l : nat) (x y : A) (h : list A) :
  set_nth l x (set_nth l y h) = set_nth l x h.
Proof.
  revert l. induction h as [|z t IH]; intros [|l]; simpl;
    try reflexivity.
  now rewrite IH.
Qed.

Lemma get_col_set_col_same (name : string) (c : column) (df : DataFrame) :
  get_col name (set_col name c df) = Some c.
Proof.
  induction df as [|[n c'] t IH]; simpl.
  - now rewrite String.eqb_refl.
  - destruct (String.eqb n name) eqn:E; simpl; rewrite E; auto.
Qed.

Lemma get_col_set_col_other (name name' : string) (c : column)
  (df : DataFrame) :
  name' <> name -> get_col name' (set_col name c df) = get_col name' df.
Proof.
  intros Hne. induction df as [|[n c'] t IH]; simpl.
  - apply String.eqb_neq in Hne. rewrite String.eqb_sym in Hne.
    now rewrite Hne.
  - destruct (String.eqb n name) eqn:E; simpl.
    + apply String.eqb_eq in E. subst n.
      apply String.eqb_neq in Hne. rewrite String.eqb_sym in Hne.
      now rewrite Hne.
    + now rewrite IH.
Qed.

Lemma traverse_as_time (times : list Z) :
  traverse as_time (map VTime times) = Some times.
Proof.
  induction times as [|t ts IH]; simpl; [reflexivity|]. now rewrite IH.
Qed.

Lemma traverse_dates (times : list Z) :
  traverse (fun c => option_map (fun t => VDate (date_of t)) (as_time c))
    (map VTime times)
  = Some (map (fun t => VDate (date_of t)) times).
Proof.
  induction times as [|t ts IH]; simpl; [reflexivity|]. now rewrite IH.
Qed.

(** The caller's table after [find_superfans]: the timestamps are
    datetimes and the column [date] is there. *)
Definition after_find_superfans (times : list Z) (table : DataFrame)
  : DataFrame :=
  set_col "date" (map (fun t => VDate (date_of t)) times)
    (set_col "timestamp" (map VTime times) table).

(** The caller's table after [cummulative_edits]. *)
Definition after_cummulative_edits (period : string) (start_time : Z -> Z)
  (times : list Z) (table : DataFrame) : DataFrame :=
  set_col (period ++ "_period")%string
    (map (fun t => VTime (start_time t)) times)
    (set_col "timestamp" (map VTime times) table).

Section CallFacts.
Variable parse_datetime : string -> option Z.
Variable to_period : string -> option (Z -> Z).

Variables (h : heap) (df : loc) (table : DataFrame).
Variables (ts : column) (times : list Z).
Hypothesis Hdf : nth_error h df = Some table.
Hypothesis Hts : get_col "timestamp" table = Some ts.
Hypothesis Htimes : traverse (datetime_of parse_datetime) ts = Some times.

Lemma timestamp_converted :
  (ts <- getitem df "timestamp" ;;
   ts <- to_datetime parse_datetime ts ;;
   setitem df "timestamp" ts) h
  = (Ok tt, set_nth df (set_col "timestamp" (map VTime times) table) h).
Proof.
  rewrite (bind_ok _ _ h h ts) by now apply getitem_ok with table.
  rewrite (bind_ok _ _ h h (map VTime times)).
  - now apply setitem_ok.
  - unfold to_datetime. apply lift_some. now rewrite Htimes.
Qed.

Lemma find_superfans_call_ok (us ls : column) (users : list string)
  (lens : list Z) (rows : list Revision) :
  get_col "userid" table = Some us ->
  traverse as_str us = Some users ->
  get_col "text_length" table = Some ls ->
  traverse as_int ls = Some lens ->
  zip3 users times lens = Some rows ->
  find_superfans_call parse_datetime df h
  = (Ok (find_superfans rows),
     set_nth df (after_find_superfans times table) h).
Proof.
  intros Hus Husers Hls Hlens Hrows.
  set (t1 := set_col "timestamp" (map VTime times) table).
  set (h1 := set_nth df t1 h).
  assert (H1 : nth_error h1 df = Some t1)
    by (eapply set_nth_same; exact Hdf).
  set (h2 := set_nth df (after_find_superfans times table) h).
  assert (H2 : nth_error h2 df = Some (after_find_superfans times table))
    by (eapply set_nth_same; exact Hdf).
  assert (Hcol : forall name,
             name <> "timestamp"%string -> name <> "date"%string ->
             get_col name (after_find_superfans times table)
             = get_col name table).
  { intros name N1 N2. unfold after_find_superfans.
    now rewrite !get_col_set_col_other. }
  unfold find_superfans_call.
  rewrite (bind_ok _ _ h h ts) by now apply getitem_ok with table.
  rewrite (bind_ok _ _ h h (map VTime times))
    by (unfold to_datetime; apply lift_some; now rewrite Htimes).
  rewrite (bind_ok _ _ h h1 tt) by now apply setitem_ok.
  rewrite (bind_ok _ _ h1 h1 (map VTime times))
    by (apply getitem_ok with t1;
        [exact H1|apply get_col_set_col_same]).
  rewrite (bind_ok _ _ h1 h1 (map (fun t => VDate (date_of t)) times))
    by (unfold dt_date; apply lift_some, traverse_dates).
  rewrite (bind_ok _ _ h1 h2 tt).
  2:{ rewrite (setitem_ok _ _ _ _ t1 H1). unfold h1, h2.
      now rewrite set_nth_twice. }
  rewrite (bind_ok _ _ h2 h2 rows); [reflexivity|].
  unfold revisions_of.
  rewrite (bind_ok _ _ h2 h2 us).
  2:{ apply getitem_ok with (after_find_superfans times table);
        [exact H2|]. rewrite Hcol; [exact Hus|discriminate|discriminate]. }
  rewrite (bind_ok _ _ h2 h2 (map VTime times)).
  2:{ apply getitem_ok with (after_find_superfans times table);
        [exact H2|]. unfold after_find_superfans.
      rewrite get_col_set_col_other by discriminate.
      apply get_col_set_col_same. }
  rewrite (bind_ok _ _ h2 h2 ls).
  2:{ apply getitem_ok with (after_find_superfans times table);
        [exact H2|]. rewrite Hcol; [exact Hls|discriminate|discriminate]. }
  rewrite (bind_ok _ _ h2 h2 users) by now apply lift_some.
  rewrite (bind_ok _ _ h2 h2 times) by apply lift_some, traverse_as_time.
  rewrite (bind_ok _ _ h2 h2 lens) by now apply lift_some.
  now apply lift_some.
Qed.

Lemma cummulative_edits_call_ok (period : string) (start_time : Z -> Z) :
  to_period period = Some start_time ->
  cummulative_edits_call parse_datetime to_period df period h
  = (Ok (cummulative_edits start_time times),
     set_nth df (after_cummulative_edits period start_time times table) h).
Proof.
  intros Hperiod.
  set (t1 := set_col "timestamp" (map VTime times) table).
  set (h1 := set_nth df t1 h).
  assert (H1 : nth_error h1 df = Some t1)
    by (eapply set_nth_same; exact Hdf).
  unfold cummulative_edits_call.
  rewrite (bind_ok _ _ h h ts) by now apply getitem_ok with table.
  rewrite (bind_ok _ _ h h (map VTime times))
    by (unfold to_datetime; apply lift_some; now rewrite Htimes).
  rewrite (bind_ok _ _ h h1 tt) by now apply setitem_ok.
  rewrite (bind_ok _ _ h1 h1 (map VTime times))
    by (apply getitem_ok with t1;
        [exact H1|apply get_col_set_col_same]).
  rewrite (bind_ok _ _ h1 h1 times) by apply lift_some, traverse_as_time.
  rewrite (bind_ok _ _ h1 h1 start_time) by now apply lift_some.
  rewrite (bind_ok _ _ h1
             (set_nth df
                (after_cummulative_edits period start_time times table) h)
             tt); [reflexivity|].
  rewrite (setitem_ok _ _ _ _ t1 H1). unfold h1.
  now rewrite set_nth_twice.
Qed.
End CallFacts.

(** C9.  Both functions assign to the table the caller passed.  When the
    caller's table has a [timestamp] column that [pd.to_datetime] accepts,
    then after [find_superfans] returns (the other two columns being there)
    the table the caller holds has its [timestamp] column converted to
    datetimes and has a [date] column, and after [cummulative_edits]
    returns it has its [timestamp] column converted and a column named
    after the period; the other tables of the heap are untouched and the
    results are values of their own. *)
Theorem calls_mutate_caller_table
  (parse_datetime : string -> option Z)
  (to_period : string -> option (Z -> Z))
  (h : heap) (df : loc) (table : DataFrame) (ts : column) (times : list Z) :
  nth_error h df = Some table ->
  get_col "timestamp" table = Some ts ->
  traverse (datetime_of parse_datetime) ts = Some times ->
  (forall us ls users lens rows,
      get_col "userid" table = Some us ->
      traverse as_str us = Some users ->
      get_col "text_length" table = Some ls ->
      traverse as_int ls = Some lens ->
      zip3 users times lens = Some rows ->
      exists h',
        find_superfans_call parse_datetime df h
        = (Ok (find_superfans rows), h') /\
        nth_error h' df = Some (after_find_superfans times table) /\
        get_col "timestamp" (after_find_superfans times table)
        = Some (map VTime times) /\
        get_col "date" (after_find_superfans times table)
        = Some (map (fun t => VDate (date_of t)) times) /\
        forall l, l <> df -> nth_error h' l = nth_error h l) /\
  (forall period start_time,
      to_period period = Some start_time ->
      exists h',
        cummulative_edits_call parse_datetime to_period df period h
        = (Ok (cummulative_edits start_time times), h') /\
        nth_error h' df
        = Some (after_cummulative_edits period start_time times table) /\
        get_col "timestamp"
          (after_cummulative_edits period start_time times table)
        = Some (map VTime times) /\
        get_col (period ++ "_period")%string
          (after_cummulative_edits period start_time times table)
        = Some (map (fun t => VTime (start_time t)) times) /\
        forall l, l <> df -> nth_error h' l = nth_error h l).
Proof.
  intros Hdf Hts Htimes. split.
  - intros us ls users lens rows Hus Husers Hls Hlens Hrows.
    eexists. split; [|split; [|split; [|split]]].
    + eapply find_superfans_call_ok; eassumption.
    + eapply set_nth_same. exact Hdf.
    + unfold after_find_superfans.
      rewrite get_col_set_col_other by discriminate.
      apply get_col_set_col_same.
    + apply get_col_set_col_same.
    + intros l Hl. now apply set_nth_other.
  - intros period start_time Hperiod.
    eexists. split; [|split; [|split; [|split]]].
    + eapply cummulative_edits_call_ok; eassumption.
    + eapply set_nth_same. exact Hdf.
    + unfold after_cummulative_edits.
      destruct (string_dec "timestamp" (period ++ "_period")) as [E|N].
      * exfalso. revert E. clear.
        assert (Hlen : forall s : string,
                   "timestamp"%string = (s ++ "_period")%string ->
                   False).
        { intros s E.
          assert (L : String.length (s ++ "_period")
                      = (String.length s + 7)%nat).
          { clear. induction s as [|c s IH]; simpl; [reflexivity|].
            now rewrite IH. }
          rewrite <- E in L. simpl in L.
          destruct s as [|a [|b [|c s']]]; simpl in *; try discriminate.
          all: lia. }
        apply Hlen.
      * rewrite get_col_set_col_other by exact N.
        apply get_col_set_col_same.
    + apply get_col_set_col_same.
    + intros l Hl. now apply set_nth_other.
Qed.

(** A caller's table with its timestamps still text, a parser that knows
    those two texts, and the daily period. *)
Definition caller_table : DataFrame :=
  [ ("userid"%string, [VStr "A"; VStr "B"]);
    ("timestamp"%string, [VStr "2022-01-08"; VStr "2022-01-09"]);
    ("text_length"%string, [VInt 100; VInt 210]) ].

Definition parse_two_days (s : string) : option Z :=
  if String.eqb s "2022-01-08" then Some (day1 * ns_per_day)
  else if String.eqb s "2022-01-09" then Some ((day1 + 1) * ns_per_day)
  else None.

Definition daily (period : string) : option (Z -> Z) :=
  if String.eqb period "D" then Some (fun t => t / ns_per_day * ns_per_day)
  else None.

Lemma calls_mutate_caller_table_witness :
  get_col "date" caller_table = None /\
  get_col "D_period" caller_table = None /\
  (exists h',
      fst (find_superfans_call parse_two_days 0%nat [caller_table])
      = Ok (find_superfans
              [ mkRevision "A" (day1 * ns_per_day) 100;
                mkRevision "B" ((day1 + 1) * ns_per_day) 210 ]) /\
      snd (find_superfans_call parse_two_days 0%nat [caller_table]) = h' /\
      option_map (get_col "date") (nth_error h' 0%nat)
      = Some (Some [VDate day1; VDate (day1 + 1)])) /\
  (exists h',
      snd (cummulative_edits_call parse_two_days daily 0%nat "D"
             [caller_table]) = h' /\
      option_map (get_col "D_period") (nth_error h' 0%nat)
      = Some (Some [VTime (day1 * ns_per_day);
                    VTime ((day1 + 1) * ns_per_day)])).
Proof.
  destruct (calls_mutate_caller_table parse_two_days daily [caller_table]
              0%nat caller_table
              [VStr "2022-01-08"; VStr "2022-01-09"]
              [day1 * ns_per_day; (day1 + 1) * ns_per_day]
              eq_refl eq_refl eq_refl) as [Hfind Hcum].
  split; [reflexivity|]. split; [reflexivity|]. split.
  - destruct (Hfind [VStr "A"; VStr "B"] [VInt 100; VInt 210]
                ["A"%string; "B"%string] [100; 210]
                [ mkRevision "A" (day1 * ns_per_day) 100;
                  mkRevision "B" ((day1 + 1) * ns_per_day) 210 ]
                eq_refl eq_refl eq_refl eq_refl eq_refl)
      as (h' & Hcall & Hh' & _ & Hdate & _).
    exists h'. rewrite Hcall. split; [reflexivity|]. split; [reflexivity|].
    rewrite Hh'. cbn [option_map]. rewrite Hdate. reflexivity.
  - destruct (Hcum "D"%string (fun t => t / ns_per_day * ns_per_day)
                eq_refl) as (h' & Hcall & Hh' & _ & Hcol & _).
    exists h'. rewrite Hcall. split; [reflexivity|].
    rewrite Hh'. cbn [option_map]. now f_equal.
Defined.

(** ** [count_string] *)










(** ** Patterns: the matcher against the language *)

Lemma nullable_matches (r : regex) : nullable r = true <-> matches r [].
Proof.
  split.
  - induction r; simpl; intros Hn; try discriminate.
    + constructor.
    + apply andb_true_iff in Hn. destruct Hn as [H1 H2].
      change (@nil ascii) with (@nil ascii ++ []). constructor; auto.
    + apply orb_true_iff in Hn. destruct Hn as [H1|H2].
      * apply MAltL; auto.
      * apply MAltR; auto.
    + constructor.
  - assert (H : forall w, matches r w -> w = [] -> nullable r = true).
    { clear. intros w Hm.
      induction Hm as [|c d Hc|d Hd|r s u v Hu IHu Hv IHv|r s u Hu IHu
                      |r s u Hs IHs|r|r u v Hu IHu Hv IHv];
        intros E; simpl; try discriminate E; try reflexivity.
      - apply app_eq_nil in E. destruct E as [Eu Ev].
        now rewrite IHu, IHv.
      - now rewrite IHu.
      - rewrite IHs by assumption. apply orb_true_r. }
    intros Hm. now apply (H []).
Qed.

Lemma matches_cat_inv (r s : regex) (w : list ascii) :
  matches (Cat r s) w ->
  exists u v, w = u ++ v /\ matches r u /\ matches s v.
Proof.
  intros Hm. remember (Cat r s) as rs eqn:E.
  destruct Hm; try discriminate.
  injection E as -> ->. now exists u, v.
Qed.

Lemma matches_cat_cons (r s : regex) (d : ascii) (w : list ascii) :
  matches (Cat r s) (d :: w) ->
  (exists u v, w = u ++ v /\ matches r (d :: u) /\ matches s v) \/
  (matches r [] /\ matches s (d :: w)).
Proof.
  intros Hm. apply matches_cat_inv in Hm.
  destruct Hm as (u & v & E & Hr & Hs).
  destruct u as [|a u]; simpl in E.
  - right. subst v. now split.
  - left. injection E as <- ->. now exists u, v.
Qed.

Lemma matches_star_cons (r : regex) (d : ascii) (w : list ascii) :
  matches (Star r) (d :: w) ->
  exists u v, w = u ++ v /\ matches r (d :: u) /\ matches (Star r) v.
Proof.
  intros Hm. remember (Star r) as sr eqn:Es.
  remember (d :: w) as dw eqn:Ew.
  induction Hm as [| | | | | | |r' u v Hu _ Hv IHv]; try discriminate.
  injection Es as ->.
  destruct u as [|a u]; simpl in Ew.
  - now apply IHv.
  - injection Ew as -> <-. now exists u, v.
Qed.

Lemma deriv_matches (r : regex) (d : ascii) (w : list ascii) :
  matches (deriv d r) w <-> matches r (d :: w).
Proof.
  revert w. induction r; intros w; simpl.
  - split; intros Hm; inversion Hm.
  - split; intros Hm; inversion Hm.
  - destruct (same_char c d) eqn:E; split; intros Hm; inversion Hm; subst.
    + now constructor.
    + constructor.
    + congruence.
  - destruct (Ascii.eqb_spec d newline) as [->|Hne]; split; intros Hm;
      inversion Hm; subst.
    + congruence.
    + now constructor.
    + constructor.
  - destruct (nullable r1) eqn:En.
    + split.
      * intros Hm. inversion Hm as [| | | |? ? ? Hc|? ? ? Hs| |]; subst.
        -- inversion Hc as [| | |? ? u v Hu Hv| | | |]; subst.
           change (d :: u ++ v) with ((d :: u) ++ v).
           constructor; [now apply IHr1|assumption].
        -- change (d :: w) with ([] ++ d :: w).
           constructor; [now apply nullable_matches|now apply IHr2].
      * intros Hm. apply matches_cat_cons in Hm.
        destruct Hm as [(u & v & -> & Hu & Hv)|[_ Hs]].
        -- apply MAltL. constructor; [now apply IHr1|assumption].
        -- apply MAltR. now apply IHr2.
    + split.
      * intros Hm. inversion Hm as [| | |? ? u v Hu Hv| | | |]; subst.
        change (d :: u ++ v) with ((d :: u) ++ v).
        constructor; [now apply IHr1|assumption].
      * intros Hm. apply matches_cat_cons in Hm.
        destruct Hm as [(u & v & -> & Hu & Hv)|[Hn _]].
        -- constructor; [now apply IHr1|assumption].
        -- apply nullable_matches in Hn. congruence.
  - split; intros Hm.
    + inversion Hm; subst.
      * apply MAltL. now apply IHr1.
      * apply MAltR. now apply IHr2.
    + inversion Hm; subst.
      * apply MAltL. now apply IHr1.
      * apply MAltR. now apply IHr2.
  - split; intros Hm.
    + inversion Hm as [| | |? ? u v Hu Hv| | | |]; subst.
      change (d :: u ++ v) with ((d :: u) ++ v).
      constructor; [now apply IHr|assumption].
    + apply matches_star_cons in Hm.
      destruct Hm as (u & v & -> & Hu & Hv).
      constructor; [now apply IHr|assumption].
Qed.

(** A match at the start of the text is a prefix in the language. *)
Lemma match_here_spec (r : regex) (text : list ascii) :
  match_here r text = true <->
  exists u v, text = u ++ v /\ matches r u.
Proof.
  revert r. induction text as [|d t IH]; intros r; simpl.
  - rewrite orb_false_r, nullable_matches. split.
    + intros Hm. now exists [], [].
    + intros (u & v & E & Hm). symmetry in E.
      apply app_eq_nil in E. destruct E as [-> _]. exact Hm.
  - rewrite orb_true_iff, nullable_matches, IH. split.
    + intros [Hm|(u & v & -> & Hm)].
      * now exists [], (d :: t).
      * exists (d :: u), v. split; [reflexivity|].
        now apply deriv_matches.
    + intros (u & v & E & Hm). destruct u as [|a u].
      * now left.
      * simpl in E. injection E as <- ->. right.
        exists u, v. split; [reflexivity|]. now apply deriv_matches.
Qed.

(** [re.search] finds a match exactly when some piece of the text is in
    the language of the pattern. *)
Lemma search_spec (r : regex) (text : list ascii) :
  search r text = true <->
  exists a u b, text = a ++ u ++ b /\ matches r u.
Proof.
  induction text as [|d t IH]; simpl.
  - rewrite !orb_false_r, nullable_matches. split.
    + intros Hm. now exists [], [], [].
    + intros (a & u & b & E & Hm). symmetry in E.
      apply app_eq_nil in E. destruct E as [_ E].
      apply app_eq_nil in E. destruct E as [-> _]. exact Hm.
  - rewrite orb_true_iff, IH.
    change (nullable r || match_here (deriv d r) t)
      with (match_here r (d :: t)).
    rewrite match_here_spec. split.
    + intros [(u & v & E & Hm)|(a & u & b & -> & Hm)].
      * exists [], u, v. now split.
      * exists (d :: a), u, b. now split.
    + intros (a & u & b & E & Hm). destruct a as [|c a].
      * left. now exists u, b.
      * simpl in E. injection E as <- ->. right. now exists a, u, b.
Qed.

(** ** [includes_string] *)

Local Open Scope char_scope.

(** The characters [step] does not take for themselves. *)
Definition is_special (c : ascii) : bool :=
  match c with
  | "\" | "(" | ")" | "|" | "*" | "+" | "?" | "." | "^" | "$" | "[" | "{" =>
      true
  | _ => false
  end.

(** Text within ASCII, where bytes are characters and the case folding
    of [re] is that of [same_char]. *)
Definition is_ascii (c : ascii) : bool := (nat_of_ascii c <? 128)%nat.

Definition ascii_text (s : string) : Prop :=
  Forall (fun c => is_ascii c = true) (list_ascii_of_string s).

(** A target free of such characters. *)
Definition plain (target : string) : Prop :=
  Forall (fun c => is_special c = false) (list_ascii_of_string target).

(** A piped link to the target inside a text: [[[], anything on one line,
    [|], the target up to case, []]]. *)
Definition pipe_link (target text : list ascii) : Prop :=
  exists pre mid v post,
    text = pre ++ "[" :: "[" :: mid ++ "|" :: v ++ "]" :: "]" :: post /\
    Forall (fun d => d <> newline) mid /\
    Forall2 (fun c d => same_char c d = true) target v.

Definition link_items (target : list ascii) : list regex :=
  [Lit "["; Lit "["; Star Dot; Lit "|"] ++ map Lit target
  ++ [Lit "]"; Lit "]"].

Definition link_regex (target : list ascii) : regex :=
  Alt (cat_list (link_items target)) Void.

Lemma step_plain (st : pstate) (c : ascii) :
  is_special c = false -> escaped st = false ->
  step st c = push_item (Lit c) st.
Proof.
  intros Hc He. unfold step. rewrite He.
  destruct c as [[] [] [] [] [] [] [] []];
    try reflexivity; vm_compute in Hc; discriminate Hc.
Qed.

Lemma steps_app (st : pstate) (p q : list ascii) :
  steps st (p ++ q)
  = match steps st p with
    | Pattern st' => steps st' q
    | ReError => ReError
    | Unsupported => Unsupported
    end.
Proof.
  revert st. induction p as [|c p IH]; intros st; simpl; [reflexivity|].
  destruct (step st c); auto.
Qed.

Lemma steps_plain (al : list (list regex)) (its : list regex)
  (stk : list frame) (target : list ascii) :
  Forall (fun c => is_special c = false) target ->
  steps (mkPState (mkFrame al its) stk false Item) target
  = Pattern (mkPState (mkFrame al (rev (map Lit target) ++ its)) stk
               false Item).
Proof.
  intros Hp. revert its. induction Hp as [|c t Hc _ IH]; intros its.
  - reflexivity.
  - simpl steps. rewrite step_plain by (assumption || reflexivity).
    unfold push_item. simpl. rewrite IH. simpl.
    now rewrite <- app_assoc.
Qed.

Lemma list_ascii_of_string_app (s t : string) :
  list_ascii_of_string (s ++ t)
  = list_ascii_of_string s ++ list_ascii_of_string t.
Proof.
  induction s as [|c s IH]; simpl; [reflexivity|]. now rewrite IH.
Qed.

(** What [re.compile] makes of the pattern of a plain target. *)
Lemma compile_plain (target : string) :
  plain target ->
  compile (includes_pattern target)
  = Pattern (link_regex (list_ascii_of_string target)).
Proof.
  intros Hp. unfold compile, includes_pattern.
  rewrite !list_ascii_of_string_app, steps_app.
  change (steps initial (list_ascii_of_string "\[\[.*?\|"))
    with (Pattern (mkPState
                     (mkFrame [] [Lit "|"; Star Dot; Lit "["; Lit "["])
                     [] false Item)).
  cbv beta iota.
  rewrite steps_app, (steps_plain _ _ _ _ Hp).
  simpl. unfold frame_regex. simpl.
  rewrite !rev_app_distr, rev_involutive. simpl.
  unfold link_regex, link_items.
  now rewrite <- !app_assoc.
Qed.

Lemma matches_void_inv (w : list ascii) : ~ matches Void w.
Proof. intros Hm. inversion Hm. Qed.

Lemma matches_eps_inv (w : list ascii) : matches Eps w -> w = [].
Proof. intros Hm. now inversion Hm. Qed.

Lemma matches_lit_inv (c : ascii) (w : list ascii) :
  matches (Lit c) w -> exists d, w = [d] /\ same_char c d = true.
Proof. intros Hm. inversion Hm; subst. now exists d. Qed.

Lemma matches_alt_inv (r s : regex) (w : list ascii) :
  matches (Alt r s) w -> matches r w \/ matches s w.
Proof. intros Hm. inversion Hm; subst; auto. Qed.

Lemma matches_star_dot (w : list ascii) :
  matches (Star Dot) w <-> Forall (fun d => d <> newline) w.
Proof.
  split.
  - intros Hm. remember (Star Dot) as r eqn:E.
    induction Hm as [| | | | | | |r u v Hu _ Hv IHv]; try discriminate.
    + constructor.
    + injection E as ->. inversion Hu; subst. simpl.
      constructor; [assumption|now apply IHv].
  - induction 1 as [|d t Hd _ IH].
    + constructor.
    + change (d :: t) with ([d] ++ t).
      constructor; [now constructor|assumption].
Qed.

Lemma matches_cat_list_cons (r : regex) (rs : list regex) (w : list ascii) :
  matches (cat_list (r :: rs)) w <->
  exists u v, w = u ++ v /\ matches r u /\ matches (cat_list rs) v.
Proof.
  simpl. split.
  - apply matches_cat_inv.
  - intros (u & v & -> & Hu & Hv). now constructor.
Qed.

Lemma matches_lit_cons (c : ascii) (rs : list regex) (w : list ascii) :
  matches (cat_list (Lit c :: rs)) w <->
  exists d v, w = d :: v /\ same_char c d = true /\ matches (cat_list rs) v.
Proof.
  rewrite matches_cat_list_cons. split.
  - intros (u & v & -> & Hu & Hv).
    apply matches_lit_inv in Hu. destruct Hu as (d & -> & Hd).
    now exists d, v.
  - intros (d & v & -> & Hd & Hv).
    exists [d], v. split; [reflexivity|]. split; [now constructor|exact Hv].
Qed.

Lemma matches_lits (target : list ascii) (rs : list regex)
  (w : list ascii) :
  matches (cat_list (map Lit target ++ rs)) w <->
  exists v x, w = v ++ x /\
              Forall2 (fun c d => same_char c d = true) target v /\
              matches (cat_list rs) x.
Proof.
  revert w. induction target as [|c t IH]; intros w.
  - simpl. split.
    + intros Hm. exists [], w. now repeat split.
    + intros (v & x & -> & Hv & Hx). inversion Hv; subst. exact Hx.
  - change (map Lit (c :: t) ++ rs) with (Lit c :: (map Lit t ++ rs)).
    rewrite matches_lit_cons. split.
    + intros (d & y & -> & Hd & Hy). apply IH in Hy.
      destruct Hy as (v & x & -> & Hv & Hx).
      exists (d :: v), x. split; [reflexivity|].
      split; [now constructor|exact Hx].
    + intros (v & x & -> & Hv & Hx). inversion Hv as [|? d ? v' Hd Hv'].
      subst. exists d, (v' ++ x). split; [reflexivity|].
      split; [exact Hd|]. apply IH. now exists v', x.
Qed.

Lemma lower_is_lower (d : ascii) :
  is_upper d = true -> is_lower (lower d) = true.
Proof.
  destruct d as [[] [] [] [] [] [] [] []]; intros H;
    try reflexivity; vm_compute in H; discriminate H.
Qed.

Lemma same_char_punct (c d : ascii) :
  is_upper c = false -> is_lower c = false ->
  same_char c d = true -> d = c.
Proof.
  unfold same_char. intros Hu Hl E. apply Ascii.eqb_eq in E.
  unfold lower in E at 1. rewrite Hu in E.
  destruct (is_upper d) eqn:Ud.
  - apply lower_is_lower in Ud. rewrite <- E in Ud. congruence.
  - unfold lower in E. rewrite Ud in E. congruence.
Qed.

Lemma link_regex_matches (target u : list ascii) :
  matches (link_regex target) u <->
  exists mid v,
    u = "[" :: "[" :: mid ++ "|" :: v ++ ["]"; "]"] /\
    Forall (fun d => d <> newline) mid /\
    Forall2 (fun c d => same_char c d = true) target v.
Proof.
  unfold link_regex, link_items.
  change ([Lit "["; Lit "["; Star Dot; Lit "|"] ++ map Lit target
          ++ [Lit "]"; Lit "]"])
    with (Lit "[" :: Lit "[" :: Star Dot :: Lit "|"
          :: (map Lit target ++ [Lit "]"; Lit "]"])).
  split.
  - intros Hm. apply matches_alt_inv in Hm.
    destruct Hm as [Hm|Hm]; [|now apply matches_void_inv in Hm].
    apply matches_lit_cons in Hm. destruct Hm as (d1 & w1 & -> & E1 & Hm).
    apply matches_lit_cons in Hm. destruct Hm as (d2 & w2 & -> & E2 & Hm).
    apply matches_cat_list_cons in Hm.
    destruct Hm as (mid & w3 & -> & Hmid & Hm).
    apply matches_lit_cons in Hm. destruct Hm as (d3 & w4 & -> & E3 & Hm).
    apply matches_lits in Hm. destruct Hm as (v & w5 & -> & Hv & Hm).
    apply matches_lit_cons in Hm. destruct Hm as (d4 & w6 & -> & E4 & Hm).
    apply matches_lit_cons in Hm. destruct Hm as (d5 & w7 & -> & E5 & Hm).
    apply matches_eps_inv in Hm. subst w7.
    apply same_char_punct in E1, E2, E3, E4, E5; try reflexivity. subst.
    exists mid, v. split; [reflexivity|].
    split; [now apply matches_star_dot|exact Hv].
  - intros (mid & v & -> & Hmid & Hv).
    apply MAltL.
    apply matches_lit_cons. eexists _, _. repeat split.
    apply matches_lit_cons. eexists _, _. repeat split.
    apply matches_cat_list_cons. exists mid. eexists.
    split; [reflexivity|]. split; [now apply matches_star_dot|].
    apply matches_lit_cons. eexists _, _. repeat split.
    apply matches_lits. exists v. eexists.
    split; [reflexivity|]. split; [exact Hv|].
    apply matches_lit_cons. eexists _, _. repeat split.
    apply matches_lit_cons. eexists _, _. repeat split.
    constructor.
Qed.

Lemma contains_search (r : regex) (text : string) :
  contains r (Some text) = 1 <->
  search r (list_ascii_of_string text) = true.
Proof.
  unfold contains. destruct (search r (list_ascii_of_string text));
    split; (reflexivity || discriminate).
Qed.

Lemma link_text_app (mid v b : list ascii) :
  ("[" :: "[" :: mid ++ "|" :: v ++ ["]"; "]"]) ++ b
  = "[" :: "[" :: mid ++ "|" :: v ++ "]" :: "]" :: b.
Proof.
  simpl. rewrite <- app_assoc. simpl. rewrite <- app_assoc. reflexivity.
Qed.

Lemma search_link_regex (target text : list ascii) :
  search (link_regex target) text = true <-> pipe_link target text.
Proof.
  rewrite search_spec. unfold pipe_link. split.
  - intros (a & u & b & -> & Hm). apply link_regex_matches in Hm.
    destruct Hm as (mid & v & -> & Hmid & Hv).
    exists a, mid, v, b. split; [|now split].
    now rewrite link_text_app.
  - intros (pre & mid & v & post & -> & Hmid & Hv).
    exists pre, ("[" :: "[" :: mid ++ "|" :: v ++ ["]"; "]"]), post.
    split.
    + now rewrite link_text_app.
    + apply link_regex_matches. now exists mid, v.
Qed.

Lemma includes_string_plain (target : string) (col : list (option string)) :
  plain target ->
  includes_string target col
  = Pattern (map (contains (link_regex (list_ascii_of_string target))) col).
Proof.
  intros Hp. unfold includes_string. now rewrite compile_plain.
Qed.

Local Open Scope string_scope.

(** C10.  On ASCII targets and texts, [includes_string] gives 1 exactly
    to the texts in which [re.search] finds the pattern compiled from
    [\[\[.*?\|], the target as it is, and [\]\]].  For a target without
    pattern characters these are the texts that hold a piped link
    [[...|target]], up to case and with the dots on one line, so a bare
    [[target]] gets 0 and a missing text gets 0.  A target with pattern
    characters is read as a pattern: its dot stands for any character, its
    bar splits the whole pattern in two alternatives, and an unbalanced
    parenthesis makes [re.compile] raise. *)
Theorem includes_string_pipe_links :
  (forall target r text,
      ascii_text target -> ascii_text text ->
      compile (includes_pattern target) = Pattern r ->
      includes_string target [Some text; None]
      = Pattern [contains r (Some text); 0] /\
      (contains r (Some text) = 1 <->
       exists a u b,
         list_ascii_of_string text = (a ++ u ++ b)%list /\ matches r u)) /\
  (forall target text,
      ascii_text target -> ascii_text text ->
      plain target ->
      (includes_string target [Some text] = Pattern [1] \/
       includes_string target [Some text] = Pattern [0]) /\
      (includes_string target [Some text] = Pattern [1] <->
       pipe_link (list_ascii_of_string target)
         (list_ascii_of_string text))) /\
  (forall target,
      ascii_text target ->
      plain target ->
      includes_string target [Some ("[[" ++ target ++ "]]")]
      = Pattern [0]) /\
  includes_string "Superfan"
    [Some "see [[Article|Superfan]]"; Some "Superfan edits";
     Some "[[article|SUPERFAN]]"; Some "[[Superfan]]"]
  = Pattern [1; 0; 1; 0] /\
  includes_string "Sup.rfan" [Some "[[a|Superfan]]"] = Pattern [1] /\
  includes_string "x|Superfan" [Some "[[Superfan]]"] = Pattern [1] /\
  includes_string "Super(fan" [Some "[[a|Super(fan]]"] = ReError.
Proof.
  split; [|split; [|split]].
  - intros target r text _ _ Hr. split.
    + unfold includes_string. now rewrite Hr.
    + now rewrite contains_search, search_spec.
  - intros target text _ _ Hp. rewrite (includes_string_plain _ _ Hp).
    cbn [map]. rewrite <- search_link_regex, <- contains_search.
    unfold contains.
    destruct (search (link_regex (list_ascii_of_string target))
                (list_ascii_of_string text)).
    + split; [now left|]. split; reflexivity.
    + split; [now right|]. split; discriminate.
  - intros target _ Hp. rewrite (includes_string_plain _ _ Hp).
    cbn [map]. unfold contains.
    destruct (search (link_regex (list_ascii_of_string target))
                (list_ascii_of_string ("[[" ++ target ++ "]]"))) eqn:E;
      [|reflexivity].
    exfalso. apply search_link_regex in E.
    destruct E as (pre & mid & v & post & E & _ & _).
    assert (Hin : In "|"%char
                    (list_ascii_of_string ("[[" ++ target ++ "]]"))).
    { rewrite E. apply in_or_app. right. simpl. right. right.
      apply in_or_app. right. now left. }
    rewrite !list_ascii_of_string_app in Hin. simpl in Hin.
    destruct Hin as [Hin|[Hin|Hin]]; try discriminate.
    apply in_app_or in Hin. destruct Hin as [Hin|Hin].
    + unfold plain in Hp. rewrite Forall_forall in Hp.
      specialize (Hp _ Hin). discriminate.
    + simpl in Hin. destruct Hin as [Hin|[Hin|[]]]; discriminate.
  - repeat split; vm_compute; reflexivity.
Qed.

Lemma includes_string_pipe_links_witness :
  ascii_text "Superfan" /\
  ascii_text "see [[Article|superfan]]" /\
  plain "Superfan" /\
  (includes_string "Superfan" [Some "see [[Article|superfan]]"]
   = Pattern [1] <->
   pipe_link (list_ascii_of_string "Superfan")
     (list_ascii_of_string "see [[Article|superfan]]")) /\
  includes_string "Superfan" [Some ("[[" ++ "Superfan" ++ "]]")]
  = Pattern [0].
Proof.
  assert (Hp : plain "Superfan").
  { unfold plain. simpl. repeat constructor. }
  assert (Ha : ascii_text "Superfan").
  { unfold ascii_text. simpl. repeat constructor. }
  assert (Ht : ascii_text "see [[Article|superfan]]").
  { unfold ascii_text. simpl. repeat constructor. }
  destruct includes_string_pipe_links as (_ & Hlink & Hbare & _).
  split; [exact Ha|]. split; [exact Ht|]. split; [exact Hp|]. split.
  - exact (proj2 (Hlink "Superfan" "see [[Article|superfan]]" Ha Ht Hp)).
  - exact (Hbare "Superfan" Ha Hp).
Defined.

(** * Further properties *)

Local Open Scope list_scope.
Local Open Scope Z_scope.

(** ** [prepare_biweekly_data] *)

(** The table [prepare_biweekly_data] builds from the timestamps. *)
Definition prepare_biweekly_data (start_time : Z -> Z)
  (timestamps : list Z) : list PeriodicCount :=
  let starts := map start_time timestamps in
  let biweekly_data :=
    sort_on fst (size (groupby (fun s => s) starts)) in
  map (fun p => mkPeriodicCount (fst (fst p)) (snd (fst p)) (snd p))
      (combine biweekly_data (cumsum (map snd biweekly_data))).

Section MoreCalls.
Variable parse_datetime : string -> option Z.
Variable to_period : string -> option (Z -> Z).

(** [prepare_biweekly_data(data, period)], [data] being the caller's
    table. *)
Definition prepare_biweekly_data_call (data : loc) (period : string)
  : M (list PeriodicCount) :=
  ts <- getitem data "timestamp" ;;
  ts <- to_datetime parse_datetime ts ;;
  setitem data "timestamp" ts ;;;
  ts <- getitem data "timestamp" ;;
  ts <- lift TypeError (traverse as_time ts) ;;
  start_time <- lift ValueError (to_period period) ;;
  setitem data (period ++ "_period")%string
    (map (fun t => VTime (start_time t)) ts) ;;;
  ret (prepare_biweekly_data start_time ts).
End MoreCalls.

Lemma bind_raise {A B} (m : M A) (k : A -> M B) (h h' : heap) (e : error) :
  m h = (Raise e, h') -> bind m k h = (Raise e, h').
Proof. unfold bind. now intros ->. Qed.

Lemma lift_none {A} (e : error) (h : heap) :
  lift e (@None A) h = (Raise e, h).
Proof. reflexivity. Qed.

Lemma getitem_missing (l : loc) (name : string) (h : heap) (df : DataFrame) :
  nth_error h l = Some df -> get_col name df = None ->
  getitem l name h = (Raise (KeyError name), h).
Proof.
  intros Hl Hc. unfold getitem, load.
  rewrite (bind_ok _ _ h h df) by now apply lift_some.
  now rewrite Hc.
Qed.

Lemma set_nth_id {A} (l : nat) (x : A) (h : list A) :
  nth_error h l = Some x -> set_nth l x h = h.
Proof.
  revert l. induction h as [|y t IH]; intros [|l]; simpl;
    try discriminate.
  - now intros [= ->].
  - intros Hl. now rewrite IH.
Qed.

Lemma set_col_id (name : string) (c : column) (df : DataFrame) :
  get_col name df = Some c -> set_col name c df = df.
Proof.
  induction df as [|[n c'] t IH]; simpl; [discriminate|].
  destruct (String.eqb n name).
  - now intros [= ->].
  - intros Hc. now rewrite IH.
Qed.

Lemma traverse_datetime_of_times (parse_datetime : string -> option Z)
  (times : list Z) :
  traverse (datetime_of parse_datetime) (map VTime times) = Some times.
Proof.
  induction times as [|t ts IH]; simpl; [reflexivity|]. now rewrite IH.
Qed.

Lemma after_find_superfans_twice (times : list Z) (table : DataFrame) :
  after_find_superfans times (after_find_superfans times table)
  = after_find_superfans times table.
Proof.
  unfold after_find_superfans at 1.
  rewrite (set_col_id "timestamp").
  - apply set_col_id. apply get_col_set_col_same.
  - unfold after_find_superfans.
    rewrite get_col_set_col_other by discriminate.
    apply get_col_set_col_same.
Qed.

(** X1.  [prepare_biweekly_data] and [cummulative_edits] are one
    function: on every heap, table and period they return the same
    result, or raise the same error, and leave the same heap. *)
Theorem prepare_biweekly_data_is_cummulative_edits
  (parse_datetime : string -> option Z)
  (to_period : string -> option (Z -> Z))
  (data : loc) (period : string) (h : heap) :
  prepare_biweekly_data_call parse_datetime to_period data period h
  = cummulative_edits_call parse_datetime to_period data period h /\
  forall start_time timestamps,
    prepare_biweekly_data start_time timestamps
    = cummulative_edits start_time timestamps.
Proof. split; reflexivity. Qed.

(** X2.  A table without a [timestamp] column makes each of the three
    functions raise [KeyError: 'timestamp'] before anything is assigned:
    the heap is as it was. *)
Theorem missing_timestamp_raises
  (parse_datetime : string -> option Z)
  (to_period : string -> option (Z -> Z))
  (h : heap) (df : loc) (table : DataFrame) (period : string) :
  nth_error h df = Some table ->
  get_col "timestamp" table = None ->
  find_superfans_call parse_datetime df h
  = (Raise (KeyError "timestamp"), h) /\
  cummulative_edits_call parse_datetime to_period df period h
  = (Raise (KeyError "timestamp"), h) /\
  prepare_biweekly_data_call parse_datetime to_period df period h
  = (Raise (KeyError "timestamp"), h).
Proof.
  intros Hdf Hts.
  pose proof (getitem_missing df "timestamp" h table Hdf Hts) as Hget.
  repeat split; apply bind_raise; exact Hget.
Qed.

Lemma missing_timestamp_raises_witness :
  nth_error [[("userid"%string, [VStr "A"])]] 0%nat
  = Some [("userid"%string, [VStr "A"])] /\
  find_superfans_call parse_two_days 0%nat [[("userid"%string, [VStr "A"])]]
  = (Raise (KeyError "timestamp"), [[("userid"%string, [VStr "A"])]]).
Proof.
  split; [reflexivity|].
  exact (proj1 (missing_timestamp_raises parse_two_days daily
                  [[("userid"%string, [VStr "A"])]] 0%nat
                  [("userid"%string, [VStr "A"])] "D"
                  eq_refl eq_refl)).
Defined.

(** X3.  A timestamp [pd.to_datetime] cannot read makes each of the three
    functions raise [ValueError] before anything is assigned: the heap is
    as it was. *)
Theorem unreadable_timestamp_raises
  (parse_datetime : string -> option Z)
  (to_period : string -> option (Z -> Z))
  (h : heap) (df : loc) (table : DataFrame) (ts : column)
  (period : string) :
  nth_error h df = Some table ->
  get_col "timestamp" table = Some ts ->
  traverse (datetime_of parse_datetime) ts = None ->
  find_superfans_call parse_datetime df h = (Raise ValueError, h) /\
  cummulative_edits_call parse_datetime to_period df period h
  = (Raise ValueError, h) /\
  prepare_biweekly_data_call parse_datetime to_period df period h
  = (Raise ValueError, h).
Proof.
  intros Hdf Hts Hbad.
  pose proof (getitem_ok df "timestamp" h table ts Hdf Hts) as Hget.
  assert (Hconv : to_datetime parse_datetime ts h = (Raise ValueError, h)).
  { unfold to_datetime. now rewrite Hbad. }
  repeat split.
  - unfold find_superfans_call. rewrite (bind_ok _ _ h h ts Hget).
    apply bind_raise. exact Hconv.
  - unfold cummulative_edits_call. rewrite (bind_ok _ _ h h ts Hget).
    apply bind_raise. exact Hconv.
  - unfold prepare_biweekly_data_call. rewrite (bind_ok _ _ h h ts Hget).
    apply bind_raise. exact Hconv.
Qed.

Lemma unreadable_timestamp_raises_witness :
  traverse (datetime_of parse_two_days) [VStr "2022-01-08"; VStr "soon"]
  = None /\
  find_superfans_call parse_two_days 0%nat
    [[("timestamp"%string, [VStr "2022-01-08"; VStr "soon"])]]
  = (Raise ValueError,
     [[("timestamp"%string, [VStr "2022-01-08"; VStr "soon"])]]).
Proof.
  split; [reflexivity|].
  exact (proj1 (unreadable_timestamp_raises parse_two_days daily
                  [[("timestamp"%string,
                     [VStr "2022-01-08"; VStr "soon"])]] 0%nat
                  [("timestamp"%string, [VStr "2022-01-08"; VStr "soon"])]
                  [VStr "2022-01-08"; VStr "soon"] "D"
                  eq_refl eq_refl eq_refl)).
Defined.

Section FailedCalls.
Variable parse_datetime : string -> option Z.
Variable to_period : string -> option (Z -> Z).
Variables (h : heap) (df : loc) (table : DataFrame).
Variables (ts : column) (times : list Z).
Hypothesis Hdf : nth_error h df = Some table.
Hypothesis Hts : get_col "timestamp" table = Some ts.
Hypothesis Htimes : traverse (datetime_of parse_datetime) ts = Some times.

(** The call up to the point where the three columns are read. *)
Lemma find_superfans_call_assigned
  (k : M (list CompressedEdit * list CompressedEdit * list Superfan)) :
  (ts <- getitem df "timestamp" ;;
   ts <- to_datetime parse_datetime ts ;;
   setitem df "timestamp" ts ;;;
   ts <- getitem df "timestamp" ;;
   ds <- dt_date ts ;;
   setitem df "date" ds ;;;
   k) h
  = k (set_nth df (after_find_superfans times table) h).
Proof.
  set (t1 := set_col "timestamp" (map VTime times) table).
  set (h1 := set_nth df t1 h).
  assert (H1 : nth_error h1 df = Some t1)
    by (eapply set_nth_same; exact Hdf).
  rewrite (bind_ok _ _ h h ts) by now apply getitem_ok with table.
  rewrite (bind_ok _ _ h h (map VTime times))
    by (unfold to_datetime; apply lift_some; now rewrite Htimes).
  rewrite (bind_ok _ _ h h1 tt) by now apply setitem_ok.
  rewrite (bind_ok _ _ h1 h1 (map VTime times))
    by (apply getitem_ok with t1;
        [exact H1|apply get_col_set_col_same]).
  rewrite (bind_ok _ _ h1 h1 (map (fun t => VDate (date_of t)) times))
    by (unfold dt_date; apply lift_some, traverse_dates).
  rewrite (bind_ok _ _ h1
             (set_nth df (after_find_superfans times table) h) tt);
    [reflexivity|].
  rewrite (setitem_ok _ _ _ _ t1 H1). unfold h1.
  now rewrite set_nth_twice.
Qed.

Lemma find_superfans_call_missing_userid :
  get_col "userid" table = None ->
  find_superfans_call parse_datetime df h
  = (Raise (KeyError "userid"),
     set_nth df (after_find_superfans times table) h).
Proof.
  intros Hus. unfold find_superfans_call.
  rewrite find_superfans_call_assigned.
  apply bind_raise. unfold revisions_of. apply bind_raise.
  apply getitem_missing with (after_find_superfans times table).
  - eapply set_nth_same. exact Hdf.
  - unfold after_find_superfans.
    now rewrite !get_col_set_col_other by discriminate.
Qed.

Lemma find_superfans_call_missing_text_length (us : column) :
  get_col "userid" table = Some us ->
  get_col "text_length" table = None ->
  find_superfans_call parse_datetime df h
  = (Raise (KeyError "text_length"),
     set_nth df (after_find_superfans times table) h).
Proof.
  intros Hus Hls. unfold find_superfans_call.
  rewrite find_superfans_call_assigned.
  set (h2 := set_nth df (after_find_superfans times table) h).
  assert (H2 : nth_error h2 df = Some (after_find_superfans times table))
    by (eapply set_nth_same; exact Hdf).
  apply bind_raise. unfold revisions_of.
  rewrite (bind_ok _ _ h2 h2 us).
  2:{ apply getitem_ok with (after_find_superfans times table);
        [exact H2|]. unfold after_find_superfans.
      now rewrite !get_col_set_col_other by discriminate. }
  rewrite (bind_ok _ _ h2 h2 (map VTime times)).
  2:{ apply getitem_ok with (after_find_superfans times table);
        [exact H2|]. unfold after_find_superfans.
      rewrite get_col_set_col_other by discriminate.
      apply get_col_set_col_same. }
  apply bind_raise.
  apply getitem_missing with (after_find_superfans times table);
    [exact H2|]. unfold after_find_superfans.
  now rewrite !get_col_set_col_other by discriminate.
Qed.

Lemma cummulative_edits_call_bad_period (period : string) :
  to_period period = None ->
  cummulative_edits_call parse_datetime to_period df period h
  = (Raise ValueError,
     set_nth df (set_col "timestamp" (map VTime times) table) h).
Proof.
  intros Hperiod.
  set (t1 := set_col "timestamp" (map VTime times) table).
  set (h1 := set_nth df t1 h).
  assert (H1 : nth_error h1 df = Some t1)
    by (eapply set_nth_same; exact Hdf).
  unfold cummulative_edits_call.
  rewrite (bind_ok _ _ h h ts) by now apply getitem_ok with table.
  rewrite (bind_ok _ _ h h (map VTime times))
    by (unfold to_datetime; apply lift_some; now rewrite Htimes).
  rewrite (bind_ok _ _ h h1 tt) by now apply setitem_ok.
  rewrite (bind_ok _ _ h1 h1 (map VTime times))
    by (apply getitem_ok with t1;
        [exact H1|apply get_col_set_col_same]).
  rewrite (bind_ok _ _ h1 h1 times) by apply lift_some, traverse_as_time.
  apply bind_raise. now rewrite Hperiod.
Qed.
End FailedCalls.

(** X4.  When the table has readable timestamps but no [userid] column,
    or a [userid] column but no [text_length] column, [find_superfans]
    raises the [KeyError] of the missing column only after its two
    assignments: the caller's table is left with the converted [timestamp]
    column and the new [date] column although the call failed. *)
Theorem find_superfans_fails_after_assigning
  (parse_datetime : string -> option Z)
  (h : heap) (df : loc) (table : DataFrame) (ts : column) (times : list Z) :
  nth_error h df = Some table ->
  get_col "timestamp" table = Some ts ->
  traverse (datetime_of parse_datetime) ts = Some times ->
  (get_col "userid" table = None ->
   find_superfans_call parse_datetime df h
   = (Raise (KeyError "userid"),
      set_nth df (after_find_superfans times table) h)) /\
  (forall us,
      get_col "userid" table = Some us ->
      get_col "text_length" table = None ->
      find_superfans_call parse_datetime df h
      = (Raise (KeyError "text_length"),
         set_nth df (after_find_superfans times table) h)) /\
  nth_error (set_nth df (after_find_superfans times table) h) df
  = Some (after_find_superfans times table) /\
  get_col "date" (after_find_superfans times table)
  = Some (map (fun t => VDate (date_of t)) times).
Proof.
  intros Hdf Hts Htimes. split; [|split; [|split]].
  - now apply find_superfans_call_missing_userid with ts.
  - intros us. now apply find_superfans_call_missing_text_length with ts.
  - eapply set_nth_same. exact Hdf.
  - apply get_col_set_col_same.
Qed.

Definition timestamps_only : DataFrame :=
  [ ("timestamp"%string, [VStr "2022-01-08"; VStr "2022-01-09"]) ].

Lemma find_superfans_fails_after_assigning_witness :
  get_col "date" timestamps_only = None /\
  find_superfans_call parse_two_days 0%nat [timestamps_only]
  = (Raise (KeyError "userid"),
     [ [ ("timestamp"%string,
          [VTime (day1 * ns_per_day); VTime ((day1 + 1) * ns_per_day)]);
         ("date"%string, [VDate day1; VDate (day1 + 1)]) ] ]).
Proof.
  split; [reflexivity|].
  exact (proj1 (find_superfans_fails_after_assigning parse_two_days
                  [timestamps_only] 0%nat timestamps_only
                  [VStr "2022-01-08"; VStr "2022-01-09"]
                  [day1 * ns_per_day; (day1 + 1) * ns_per_day]
                  eq_refl eq_refl eq_refl) eq_refl).
Defined.

(** X5.  A period pandas does not know makes [cummulative_edits] raise
    [ValueError] after the timestamps were converted in the caller's table
    and before the period column is assigned: the table keeps its columns,
    with [timestamp] converted. *)
Theorem cummulative_edits_bad_period
  (parse_datetime : string -> option Z)
  (to_period : string -> option (Z -> Z))
  (h : heap) (df : loc) (table : DataFrame) (ts : column) (times : list Z)
  (period : string) :
  nth_error h df = Some table ->
  get_col "timestamp" table = Some ts ->
  traverse (datetime_of parse_datetime) ts = Some times ->
  to_period period = None ->
  cummulative_edits_call parse_datetime to_period df period h
  = (Raise ValueError,
     set_nth df (set_col "timestamp" (map VTime times) table) h) /\
  get_col (period ++ "_period")%string
    (set_col "timestamp" (map VTime times) table)
  = get_col (period ++ "_period")%string table /\
  map fst (set_col "timestamp" (map VTime times) table) = map fst table.
Proof.
  intros Hdf Hts Htimes Hperiod. split; [|split].
  - now apply cummulative_edits_call_bad_period with ts.
  - destruct (string_dec (period ++ "_period") "timestamp") as [E|N].
    + rewrite E, get_col_set_col_same. symmetry.
      rewrite Hts. f_equal.
      exfalso. revert E. clear.
      assert (L : String.length (period ++ "_period")
                  = (String.length period + 7)%nat).
      { induction period as [|c s IH]; simpl; [reflexivity|].
        now rewrite IH. }
      intros E. rewrite E in L. simpl in L.
      destruct period as [|a [|b [|c s']]]; simpl in *;
        try discriminate. lia.
    + now apply get_col_set_col_other.
  - clear Hdf Htimes. revert ts Hts.
    induction table as [|[n c] t IH]; simpl; [discriminate|].
    intros ts. destruct (String.eqb n "timestamp") eqn:E; simpl.
    + reflexivity.
    + intros Hts. f_equal. now apply (IH ts).
Qed.

Lemma cummulative_edits_bad_period_witness :
  daily "fortnight" = None /\
  cummulative_edits_call parse_two_days daily 0%nat "fortnight"
    [timestamps_only]
  = (Raise ValueError,
     [ [ ("timestamp"%string,
          [VTime (day1 * ns_per_day);
           VTime ((day1 + 1) * ns_per_day)]) ] ]).
Proof.
  split; [reflexivity|].
  exact (proj1 (cummulative_edits_bad_period parse_two_days daily
                  [timestamps_only] 0%nat timestamps_only
                  [VStr "2022-01-08"; VStr "2022-01-09"]
                  [day1 * ns_per_day; (day1 + 1) * ns_per_day]
                  "fortnight" eq_refl eq_refl eq_refl eq_refl)).
Defined.

(** X6.  Calling [find_superfans] again on the table it has just been
    given changes nothing more: the second call returns the same three
    tables and leaves the heap as the first call left it. *)
Theorem find_superfans_call_twice
  (parse_datetime : string -> option Z)
  (h : heap) (df : loc) (table : DataFrame) (ts us ls : column)
  (times : list Z) (users : list string) (lens : list Z)
  (rows : list Revision) :
  nth_error h df = Some table ->
  get_col "timestamp" table = Some ts ->
  traverse (datetime_of parse_datetime) ts = Some times ->
  get_col "userid" table = Some us ->
  traverse as_str us = Some users ->
  get_col "text_length" table = Some ls ->
  traverse as_int ls = Some lens ->
  zip3 users times lens = Some rows ->
  exists h',
    find_superfans_call parse_datetime df h = (Ok (find_superfans rows), h')
    /\ find_superfans_call parse_datetime df h'
       = (Ok (find_superfans rows), h').
Proof.
  intros Hdf Hts Htimes Hus Husers Hls Hlens Hrows.
  exists (set_nth df (after_find_superfans times table) h). split.
  - eapply find_superfans_call_ok; eassumption.
  - set (t2 := after_find_superfans times table).
    set (h2 := set_nth df t2 h).
    assert (H2 : nth_error h2 df = Some t2)
      by (eapply set_nth_same; exact Hdf).
    rewrite (find_superfans_call_ok parse_datetime h2 df t2
               (map VTime times) times H2) with (us := us) (ls := ls)
               (users := users) (lens := lens) (rows := rows).
    + unfold t2 at 1. rewrite after_find_superfans_twice.
      fold t2. unfold h2. rewrite set_nth_twice. reflexivity.
    + unfold t2, after_find_superfans.
      rewrite get_col_set_col_other by discriminate.
      apply get_col_set_col_same.
    + apply traverse_datetime_of_times.
    + unfold t2, after_find_superfans.
      now rewrite !get_col_set_col_other by discriminate.
    + exact Husers.
    + unfold t2, after_find_superfans.
      now rewrite !get_col_set_col_other by discriminate.
    + exact Hlens.
    + exact Hrows.
Qed.

Lemma find_superfans_call_twice_witness :
  exists h',
    find_superfans_call parse_two_days 0%nat [caller_table]
    = (Ok (find_superfans
             [ mkRevision "A" (day1 * ns_per_day) 100;
               mkRevision "B" ((day1 + 1) * ns_per_day) 210 ]), h')
    /\ find_superfans_call parse_two_days 0%nat h'
       = (Ok (find_superfans
                [ mkRevision "A" (day1 * ns_per_day) 100;
                  mkRevision "B" ((day1 + 1) * ns_per_day) 210 ]), h').
Proof.
  exact (find_superfans_call_twice parse_two_days [caller_table] 0%nat
           caller_table
           [VStr "2022-01-08"; VStr "2022-01-09"]
           [VStr "A"; VStr "B"] [VInt 100; VInt 210]
           [day1 * ns_per_day; (day1 + 1) * ns_per_day]
           ["A"%string; "B"%string] [100; 210]
           [ mkRevision "A" (day1 * ns_per_day) 100;
             mkRevision "B" ((day1 + 1) * ns_per_day) 210 ]
           eq_refl eq_refl eq_refl eq_refl eq_refl eq_refl eq_refl eq_refl).
Defined.

(** ** More on [find_superfans] *)

(** X7.  The compressed table has as many rows as the input has distinct
    pairs of contributor and calendar day, so never more rows than the
    input, and it is empty only for the empty input. *)
Theorem compressed_df_row_count (df : list Revision) :
  List.length (compressed_df df)
  = List.length (unique (map (fun r => (userid r, date r)) df)) /\
  (List.length (compressed_df df) <= List.length df)%nat /\
  (compressed_df df = [] <-> df = []).
Proof.
  pose proof (compressed_df_distinct_pairs df) as E.
  split; [exact E|]. split.
  - rewrite E. etransitivity; [apply unique_length_le|].
    now rewrite length_map.
  - split.
    + intros Hc. destruct df as [|r t]; [reflexivity|].
      exfalso. apply (compress_rows_nonempty (r :: t)); [discriminate|].
      apply length_zero_iff_nil.
      rewrite <- compressed_df_length, Hc. reflexivity.
    + intros ->. reflexivity.
Qed.

Lemma compress_user_known (df : list Revision) (x : CompressedEdit) :
  In x (compress df) -> In (c_userid x) (map userid df).
Proof.
  intros Hx.
  destruct (proj1 (compress_In_day df (day x) (c_userid x)))
    as (r & Hr & _ & Hu).
  { exists x. now repeat split. }
  apply in_map_iff. now exists r.
Qed.

(** X8.  The merge gives every row of the compressed table the flag of its
    contributor: the row's [superfan] cell is never missing and is the
    flag of the one row of [superfans] that has the same [userid]. *)
Theorem compressed_rows_carry_flag (df : list Revision)
  (c : CompressedEdit) :
  In c (compressed_df df) ->
  exists s, In s (superfans df) /\ s_userid s = c_userid c /\
            superfan c = Some (s_superfan s) /\
            forall s', In s' (superfans df) ->
                       s_userid s' = c_userid c -> s' = s.
Proof.
  rewrite compressed_df_merge. unfold merge_superfan.
  rewrite in_map_iff. intros (x & <- & Hx). cbn [c_userid superfan].
  fold (superfans df).
  assert (Hu : In (c_userid x) (map s_userid (superfans df))).
  { apply superfan_users. now apply compress_user_known. }
  apply in_map_iff in Hu. destruct Hu as (s & Es & Hs).
  assert (Hnd : NoDup (map s_userid (superfans df))).
  { rewrite superfans_classify, classify_superfans_userid.
    apply unique_NoDup. }
  exists s. split; [exact Hs|]. split; [exact Es|]. split.
  - apply lookup_NoDup.
    + rewrite map_map. cbn [fst]. exact Hnd.
    + apply in_map_iff. exists s. split; [|exact Hs].
      cbn beta. f_equal. exact Es.
  - intros s' Hs' Es'.
    assert (Hinj : forall l : list Superfan,
               NoDup (map s_userid l) -> In s l -> In s' l ->
               s_userid s' = s_userid s -> s' = s).
    { clear. induction l as [|a l IH]; simpl; [contradiction|].
      intros Hnd [->|Hs] [->|Hs'] E.
      - reflexivity.
      - inversion Hnd as [|? ? Ha _]; subst. exfalso. apply Ha.
        rewrite <- E. now apply in_map.
      - inversion Hnd as [|? ? Ha _]; subst. exfalso. apply Ha.
        rewrite E. now apply in_map.
      - inversion Hnd; subst. now apply IH. }
    apply (Hinj (superfans df)); congruence.
Qed.

Lemma compressed_rows_carry_flag_witness :
  exists s, In s (superfans scenario) /\ s_userid s = "B"%string /\
            Some true = Some (s_superfan s).
Proof.
  destruct (compressed_rows_carry_flag scenario
              (mkCompressedEdit "B" (day1 + 1)
                 ((day1 + 1) * ns_per_day + 500) 210 10 (day1 + 1)
                 (Some true)))
    as (s & Hs & Eu & Ef & _).
  - vm_compute. right. now left.
  - exists s. split; [exact Hs|]. split; [exact Eu|exact Ef].
Defined.

Lemma compress_keys_NoDup (df : list Revision) :
  NoDup (map (fun c => (day c, c_userid c)) (compress df)).
Proof.
  pose proof (compress_rows_NoDup df) as Hnd.
  unfold compress.
  rewrite <- (with_edit_size_revisions (compress_rows df)) in Hnd.
  rewrite map_map in Hnd.
  pose proof (with_edit_size_days (compress_rows df)) as Hd.
  rewrite Forall_forall in Hd.
  induction (with_edit_size (compress_rows df)) as [|c l IH];
    [constructor|].
  simpl in *. inversion Hnd as [|? ? Hc Hl]; subst.
  constructor.
  - intros Hin. apply Hc. apply in_map_iff in Hin.
    destruct Hin as (c' & E & Hc'). apply in_map_iff. exists c'.
    split; [|exact Hc'].
    destruct (Hd c (or_introl eq_refl)) as [H1 H2].
    destruct (Hd c' (or_intror Hc')) as [H1' H2'].
    injection E as Eday Eu.
    unfold user_day, date, revision_of. cbn [userid timestamp].
    congruence.
  - apply IH; [exact Hl|]. intros c' Hc'. apply Hd. now right.
Qed.

Lemma group_of_unique_key {A K} `{Ord K} (key : A -> K) (l : list A)
  (x : A) :
  NoDup (map key l) -> In x l ->
  filter (has_key key (key x)) l = [x].
Proof.
  induction l as [|a l IH]; simpl; [contradiction|].
  intros Hnd Hx. inversion Hnd as [|? ? Ha Hl]; subst.
  assert (Hrest : forall k, ~ In k (map key l) ->
                            filter (has_key key k) l = []).
  { clear. intros k Hk. induction l as [|b l IH]; [reflexivity|].
    simpl. destruct (has_key key k b) eqn:E.
    - apply has_key_iff in E. exfalso. apply Hk. left. exact E.
    - apply IH. intros Hin. apply Hk. now right. }
  destruct Hx as [->|Hx].
  - unfold has_key at 1. rewrite keqb_refl. f_equal. now apply Hrest.
  - destruct (has_key key (key x) a) eqn:E.
    + apply has_key_iff in E. exfalso. apply Ha. rewrite E.
      now apply in_map.
    + now apply IH.
Qed.

(** X9.  After the compression every pair of day and contributor has one
    row: each count of [agg] is 1. *)
Theorem agg_counts_are_one (df : list Revision) (a : (Z * string) * Z) :
  In a (agg_num_edits (compress df)) -> snd a = 1.
Proof.
  unfold agg_num_edits, size. rewrite in_map_iff.
  intros ([k g] & <- & Hg). cbn [fst snd].
  apply groupby_In in Hg. destruct Hg as [Hk ->].
  apply group_keys_In in Hk. destruct Hk as (x & Hx & <-).
  rewrite (group_of_unique_key (fun c => (day c, c_userid c))).
  - reflexivity.
  - apply compress_keys_NoDup.
  - exact Hx.
Qed.

Lemma agg_counts_are_one_witness :
  snd (day1, "A"%string, 1) = 1.
Proof.
  apply (agg_counts_are_one scenario (day1, "A"%string, 1)).
  vm_compute. now left.
Defined.

(** X10.  The day counts of the contributors add up to the number of rows
    of the compressed table. *)
Theorem num_edits_total (df : list Revision) :
  sum_Z (map num_edits (superfans df))
  = Z.of_nat (List.length (compressed_df df)).
Proof.
  rewrite superfans_classify, classify_superfans_num_edits.
  set (agg := agg_num_edits (compress df)).
  assert (Hn : forall u, In u (agg_users (compress df)) ->
                         num_days (compress df) u
                         = Z.of_nat (List.length
                                       (filter (has_key agg_user u) agg))).
  { intros u Hu. unfold num_days. fold agg. rewrite size_In_length.
    - reflexivity.
    - apply group_keys_In. unfold agg_users in Hu.
      apply unique_In, in_map_iff in Hu.
      destruct Hu as (a & Ea & Ha). now exists a. }
  rewrite (map_ext_in _ _ _ Hn).
  rewrite (group_sizes_total agg_user agg).
  - unfold agg, agg_num_edits, size. rewrite length_map.
    unfold groupby. rewrite length_map.
    fold (group_keys (fun c => (day c, c_userid c)) (compress df)).
    rewrite group_keys_length.
    rewrite unique_of_NoDup by apply compress_keys_NoDup.
    now rewrite length_map, compressed_df_length, compress_length.
  - apply unique_NoDup.
  - intros a Ha. unfold agg_users. apply unique_In. now apply in_map.
Qed.

Lemma ge_quantile_mono (x y : Z) (t : option Q) :
  x <= y -> ge_quantile x t = true -> ge_quantile y t = true.
Proof.
  intros Hxy. destruct t as [q|]; simpl; [|discriminate].
  rewrite !Qle_bool_iff. intros Hq.
  eapply Qle_trans; [exact Hq|]. now rewrite <- Zle_Qle.
Qed.

(** X11.  The flag goes by the day count alone and upwards: a contributor
    with at least as many active days as a superfan is a superfan, and so
    two contributors with the same count have the same flag. *)
Theorem superfan_flag_monotone (df : list Revision) (s s' : Superfan) :
  In s (superfans df) -> In s' (superfans df) ->
  (num_edits s <= num_edits s' ->
   s_superfan s = true -> s_superfan s' = true) /\
  (num_edits s = num_edits s' -> s_superfan s = s_superfan s').
Proof.
  rewrite superfans_classify, classify_superfans_rows, !in_map_iff.
  intros (u & <- & Hu) (u' & <- & Hu'). cbn [num_edits s_superfan]. split.
  - apply ge_quantile_mono.
  - intros E. rewrite E. reflexivity.
Qed.

Lemma superfan_flag_monotone_witness :
  In (mkSuperfan "A" 1 true) (superfans scenario) /\
  (1 <= 1 -> true = true -> true = true).
Proof.
  assert (HA : In (mkSuperfan "A" 1 true) (superfans scenario)).
  { vm_compute. left. reflexivity. }
  assert (HB : In (mkSuperfan "B" 1 true) (superfans scenario)).
  { vm_compute. right. left. reflexivity. }
  split; [exact HA|].
  exact (proj1 (superfan_flag_monotone scenario _ _ HA HB)).
Defined.

Lemma NoDup_map_sublist {X Y} (f : X -> Y) (p : X -> bool) (l : list X) :
  NoDup (map f l) -> NoDup (map f (filter p l)).
Proof.
  intros Hnd. apply NoDup_map_filter with (g := f); auto.
Qed.

Lemma compressed_df_sorted (df : list Revision) :
  StronglySorted (fun a b => c_timestamp a <= c_timestamp b)
    (compressed_df df).
Proof.
  pose proof (compress_rows_sorted df) as Hs.
  rewrite <- compressed_df_revisions in Hs.
  apply StronglySorted_map_inv in Hs. exact Hs.
Qed.

Lemma compressed_df_NoDup (df : list Revision) :
  NoDup (map (fun c => (c_userid c, c_date c)) (compressed_df df)).
Proof.
  pose proof (compress_rows_NoDup df) as Hnd.
  rewrite <- compressed_df_revisions, map_map in Hnd.
  erewrite map_ext_in; [exact Hnd|].
  intros c Hc. apply compressed_df_days in Hc. destruct Hc as [Hc _].
  unfold user_day, date, revision_of. cbn [userid timestamp].
  now rewrite Hc.
Qed.

(** X12.  The filtered table is the compressed table with rows left out:
    its rows are rows of the compressed table, still in chronological
    order and still one per contributor and day, and they are no more
    than before. *)
Theorem filtered_df_is_sublist (df : list Revision) :
  (forall c, In c (filtered_df df) -> In c (compressed_df df)) /\
  StronglySorted (fun a b => c_timestamp a <= c_timestamp b)
    (filtered_df df) /\
  NoDup (map (fun c => (c_userid c, c_date c)) (filtered_df df)) /\
  (List.length (filtered_df df) <= List.length (compressed_df df))%nat.
Proof.
  assert (E : filtered_df df = filter_outliers (compressed_df df))
    by reflexivity.
  rewrite E. unfold filter_outliers. split; [|split; [|split]].
  - intros c Hc. apply filter_In in Hc. apply Hc.
  - apply StronglySorted_filter, compressed_df_sorted.
  - apply NoDup_map_sublist, compressed_df_NoDup.
  - apply filter_length_le.
Qed.

(** ** More on [cummulative_edits] *)

Lemma rows_from_prefix_sums (acc : Z) (bd : list (Z * Z)) (i : nat)
  (r : PeriodicCount) :
  nth_error (rows_from acc bd) i = Some r ->
  cumulative_revisions r
  = acc + sum_Z (map revisions (firstn (S i) (rows_from acc bd))).
Proof.
  revert acc i. induction bd as [|[k n] bd IH]; intros acc i.
  - destruct i; discriminate.
  - rewrite rows_from_cons. destruct i as [|i].
    + intros [= <-]. cbn. lia.
    + cbn [nth_error]. intros Hr. rewrite (IH _ _ Hr).
      change (firstn (S (S i)) (?x :: ?l)) with (x :: firstn (S i) l).
      cbn [map sum_Z fold_right revisions]. unfold sum_Z. lia.
Qed.

Lemma rows_from_increasing (acc : Z) (bd : list (Z * Z)) :
  Forall (fun p => 0 < snd p) bd ->
  Forall (fun r => acc < cumulative_revisions r) (rows_from acc bd) /\
  StronglySorted
    (fun a b => cumulative_revisions a < cumulative_revisions b)
    (rows_from acc bd).
Proof.
  intros Hpos. revert acc.
  induction Hpos as [|[k n] bd Hn _ IH]; intros acc.
  - split; constructor.
  - rewrite rows_from_cons. destruct (IH (acc + n)) as [Hall Hs].
    cbn [snd] in Hn. split.
    + constructor; [cbn; lia|].
      eapply Forall_impl; [|exact Hall]. cbn. intros r Hr. lia.
    + constructor; [exact Hs|exact Hall].
Qed.

Lemma period_counts_positive (starts : list Z) :
  Forall (fun p => 0 < snd p) (period_counts starts).
Proof.
  apply Forall_forall. intros [k n] Hp.
  apply period_counts_In in Hp. destruct Hp as [Hin ->]. cbn [snd].
  assert (Hf : In k (filter (fun s => s =? k) starts)).
  { apply filter_In. split; [exact Hin|]. apply Z.eqb_refl. }
  destruct (filter (fun s => s =? k) starts);
    [contradiction|simpl List.length; lia].
Qed.

(** X13.  Each cumulative value is the sum of the counts of the buckets up
    to its own, and the cumulative column is strictly increasing. *)
Theorem cumulative_revisions_are_prefix_sums (start_time : Z -> Z)
  (timestamps : list Z) :
  (forall i r,
      nth_error (cummulative_edits start_time timestamps) i = Some r ->
      cumulative_revisions r
      = sum_Z (map revisions
                 (firstn (S i) (cummulative_edits start_time timestamps))))
  /\
  StronglySorted
    (fun a b => cumulative_revisions a < cumulative_revisions b)
    (cummulative_edits start_time timestamps).
Proof.
  unfold cummulative_edits. rewrite period_table_rows. split.
  - intros i r Hr. now rewrite (rows_from_prefix_sums _ _ _ _ Hr).
  - apply rows_from_increasing, period_counts_positive.
Qed.

Lemma sorted_perm_eq {K} `{Ord K} (l l' : list K) :
  StronglySorted (fun a b => leb a b = true) l ->
  StronglySorted (fun a b => leb a b = true) l' ->
  Permutation l l' -> l = l'.
Proof.
  intros Hs. revert l'. induction Hs as [|a t Hs IH Ha]; intros l' Hs' Hp.
  - now apply Permutation_nil in Hp.
  - destruct l' as [|b t'].
    + symmetry in Hp. now apply Permutation_nil in Hp.
    + apply StronglySorted_inv in Hs'. destruct Hs' as [Hs' Hb].
      rewrite Forall_forall in Ha, Hb.
      assert (Hab : leb a b = true).
      { assert (Hin : In b (a :: t))
          by (eapply Permutation_in; [symmetry; exact Hp|now left]).
        destruct Hin as [->|Hin]; [apply leb_refl|now apply Ha]. }
      assert (Hba : leb b a = true).
      { assert (Hin : In a (b :: t'))
          by (eapply Permutation_in; [exact Hp|now left]).
        destruct Hin as [->|Hin]; [apply leb_refl|now apply Hb]. }
      assert (E : a = b) by now apply leb_antisym.
      subst b. f_equal. apply IH; [exact Hs'|].
      eapply Permutation_cons_inv. exact Hp.
Qed.

Lemma filter_perm {A} (p : A -> bool) (l l' : list A) :
  Permutation l l' -> Permutation (filter p l) (filter p l').
Proof.
  induction 1 as [|x l l' _ IH|x y l|l l' l'' _ IH1 _ IH2]; simpl.
  - constructor.
  - destruct (p x); [now constructor|exact IH].
  - destruct (p x), (p y); try reflexivity. apply perm_swap.
  - etransitivity; eassumption.
Qed.

Lemma group_keys_perm {A K} `{Ord K} (key : A -> K) (l l' : list A) :
  Permutation l l' -> group_keys key l = group_keys key l'.
Proof.
  intros Hp. apply sorted_perm_eq.
  - apply group_keys_sorted.
  - apply group_keys_sorted.
  - apply NoDup_Permutation.
    + apply group_keys_NoDup.
    + apply group_keys_NoDup.
    + intros k. rewrite !group_keys_In.
      split; intros (x & Hx & E); exists x; (split; [|exact E]).
      * eapply Permutation_in; [exact Hp|exact Hx].
      * eapply Permutation_in; [symmetry; exact Hp|exact Hx].
Qed.

Lemma groupby_size_perm {A K} `{Ord K} (key : A -> K) (l l' : list A) :
  Permutation l l' -> size (groupby key l) = size (groupby key l').
Proof.
  intros Hp. unfold size, groupby. rewrite !map_map. cbn [fst snd].
  fold (group_keys key l). fold (group_keys key l').
  rewrite (group_keys_perm key l l' Hp).
  apply map_ext. intros k. do 2 f_equal.
  apply Permutation_length. now apply filter_perm.
Qed.

(** X14.  The result of [cummulative_edits] does not depend on the order
    of the rows of its input. *)
Theorem cummulative_edits_any_order (start_time : Z -> Z)
  (timestamps timestamps' : list Z) :
  Permutation timestamps timestamps' ->
  cummulative_edits start_time timestamps
  = cummulative_edits start_time timestamps'.
Proof.
  intros Hp. unfold cummulative_edits, period_table.
  now rewrite (groupby_size_perm (fun s : Z => s)
                 (map start_time timestamps) (map start_time timestamps')
                 (Permutation_map start_time Hp)).
Qed.

Lemma cummulative_edits_any_order_witness :
  cummulative_edits (fun t => t / 10 * 10) [31; 7; 12]
  = cummulative_edits (fun t => t / 10 * 10) [7; 31; 12].
Proof.
  apply cummulative_edits_any_order. apply perm_swap.
Defined.

(** ** More on the text patterns *)

Local Open Scope string_scope.

Lemma steps_after_pipe (rest : list ascii) :
  steps initial (list_ascii_of_string "\[\[.*?\|" ++ rest)%list
  = steps (mkPState
             (mkFrame [] [Lit "|"; Star Dot; Lit "["; Lit "["])
             [] false Item) rest.
Proof. rewrite steps_app. reflexivity. Qed.

(** X15.  A target that is free of pattern characters but for a closing
    parenthesis at its end, or an opening one, is no pattern:
    [includes_string] raises [re.error] whatever the column holds, an
    empty column included. *)
Theorem includes_string_unbalanced (target : string)
  (col : list (option string)) :
  plain target ->
  includes_string (target ++ ")") col = ReError /\
  includes_string (target ++ "(") col = ReError.
Proof.
  intros Hp. unfold includes_string, compile, includes_pattern.
  rewrite !list_ascii_of_string_app, !steps_after_pipe.
  rewrite <- !app_assoc, !steps_app, !(steps_plain _ _ _ _ Hp).
  split; reflexivity.
Qed.

Lemma includes_string_unbalanced_witness :
  plain "fan" /\ includes_string ("fan" ++ ")") [] = ReError.
Proof.
  assert (Hp : plain "fan") by (unfold plain; simpl; repeat constructor).
  split; [exact Hp|].
  exact (proj1 (includes_string_unbalanced "fan" [] Hp)).
Defined.

Lemma literal_then_boundary_length (lit : list ascii)
  (before : option ascii) (text : list ascii) :
  literal_then_boundary lit before text = true ->
  (List.length lit <= List.length text)%nat.
Proof.
  revert before text. induction lit as [|c lit IH]; intros before text.
  - simpl. lia.
  - destruct text as [|d text]; simpl; [discriminate|].
    intros H. apply andb_true_iff in H. destruct H as [_ H].
    apply IH in H. lia.
Qed.

Lemma count_matches_bound (lit : list ascii) (before : option ascii)
  (skip : nat) (text : list ascii) :
  lit <> [] -> (skip <= List.length text)%nat ->
  0 <= count_matches lit before skip text /\
  count_matches lit before skip text * Z.of_nat (List.length lit)
  <= Z.of_nat (List.length text) - Z.of_nat skip.
Proof.
  intros Hlit. revert before skip.
  induction text as [|d text IH]; intros before skip Hskip.
  - simpl in Hskip. assert (skip = 0%nat) by lia. subst skip.
    cbn [count_matches]. unfold match_word_here.
    destruct (literal_then_boundary lit before []) eqn:E.
    + apply literal_then_boundary_length in E. simpl in E.
      destruct lit; [congruence|simpl in E; lia].
    + rewrite andb_false_r. simpl. lia.
  - destruct skip as [|skip]; cbn [count_matches].
    + destruct (match_word_here lit before (d :: text)) eqn:E.
      * unfold match_word_here in E. apply andb_true_iff in E.
        destruct E as [_ E]. apply literal_then_boundary_length in E.
        simpl List.length in E.
        destruct (IH (Some d) (Nat.pred (List.length lit))) as [H0 H1];
          [lia|].
        simpl List.length. split; [lia|].
        destruct lit as [|c lit]; [congruence|].
        simpl List.length in *. simpl Nat.pred in *. nia.
      * destruct (IH (Some d) 0%nat) as [H0 H1]; [lia|].
        simpl List.length. split; [lia|]. lia.
    + simpl in Hskip.
      destruct (IH (Some d) skip) as [H0 H1]; [lia|].
      simpl List.length. split; [exact H0|]. lia.
Qed.

(** X16.  The matches counted do not overlap: for a non-empty target the
    count is a natural number and the count times the length of the
    target is at most the length of the text; a missing text has no
    count. *)
Theorem count_string_bound (target text : string) :
  target <> "" ->
  count_cell target None = None /\
  exists n,
    count_cell target (Some text) = Some n /\
    0 <= n /\
    n * Z.of_nat (String.length target) <= Z.of_nat (String.length text).
Proof.
  intros Ht. split; [reflexivity|].
  assert (Hlen : forall s, String.length s
                           = List.length (list_ascii_of_string s)).
  { induction s as [|c s IH]; simpl; congruence. }
  assert (Hlit : list_ascii_of_string target <> []).
  { destruct target; [congruence|discriminate]. }
  eexists. split; [reflexivity|].
  destruct (count_matches_bound (list_ascii_of_string target) None 0%nat
              (list_ascii_of_string text) Hlit) as [H0 H1]; [lia|].
  rewrite !Hlen. split; [exact H0|]. lia.
Qed.

Lemma count_string_bound_witness :
  "vandalism" <> "" /\
  exists n,
    count_cell "vandalism" (Some "vandalism and Vandalism-prone") = Some n
    /\ 0 <= n /\ n * 9 <= 29.
Proof.
  assert (H : "vandalism" <> "") by discriminate.
  split; [exact H|].
  exact (proj2 (count_string_bound "vandalism"
                  "vandalism and Vandalism-prone" H)).
Defined.

(** ** The edit sizes add up *)

Lemma last_any_default {A} (x : A) (l : list A) (a b : A) :
  last (x :: l) a = last (x :: l) b.
Proof.
  revert x. induction l as [|y l IH]; intros x; [reflexivity|].
  change (last (x :: y :: l) a) with (last (y :: l) a).
  change (last (x :: y :: l) b) with (last (y :: l) b).
  apply IH.
Qed.

Lemma edits_from_total (p : Z) (rows : list Revision) :
  sum_Z (map edit_size (edits_from p rows))
  = last (map text_length rows) p - p.
Proof.
  revert p. induction rows as [|r rows IH]; intros p.
  - simpl. lia.
  - rewrite edits_from_cons. cbn [map sum_Z fold_right edit_size].
    fold (sum_Z (map edit_size (edits_from (text_length r) rows))).
    rewrite IH.
    destruct rows as [|r' rows']; [simpl; lia|].
    cbn [map].
    change (last (text_length r :: text_length r' :: map text_length rows')
              p)
      with (last (text_length r' :: map text_length rows') p).
    rewrite (last_any_default _ _ (text_length r) p). lia.
Qed.

Lemma compressed_df_text_lengths (df : list Revision) :
  map c_text_length (compressed_df df)
  = map text_length (compress_rows df).
Proof.
  rewrite <- compressed_df_revisions, map_map. reflexivity.
Qed.

(** X17.  The edit sizes of the compressed table telescope: on a
    non-empty input they add up to 72 plus the text length of the
    chronologically last row minus that of the first. *)
Theorem edit_sizes_telescope (df : list Revision) :
  sum_Z (map edit_size (compressed_df df))
  = match map c_text_length (compressed_df df) with
    | [] => 0
    | first :: later => 72 + (last later first - first)
    end.
Proof.
  rewrite compressed_df_edit_size, compressed_df_text_lengths.
  unfold compress.
  destruct (compress_rows df) as [|r rows]; [reflexivity|].
  rewrite with_edit_size_cons.
  cbn [map sum_Z fold_right edit_size].
  fold (sum_Z (map edit_size (edits_from (text_length r) rows))).
  rewrite edits_from_total. unfold first_edit_size. reflexivity.
Qed.
